(** * Schema-validation diagnostics of the [babel-config/is-valid] and
      [typescript-config/is-valid] rules

    A shallow embedding of the two rule classes
    ([packages/rule-typescript-config/src/is-valid.ts] and its babel twin)
    together with the few JavaScript and lodash primitives they call, and the
    properties of the diagnostics they report.  The handlers are embedded as
    they are called by the engine on the two events they subscribe to; the
    [debug] log lines, which nothing reads, are left out. *)

From Stdlib Require Import String Ascii NArith.
From stdpp Require Import base list strings sorting.

(** ** JavaScript values and string primitives *)

(** A string is a sequence of characters, one per code unit; [substr],
    [replace] and [join] below act on them as the built-ins act on code
    units. *)

(** [s.substr(start)]: the code units of [s] from index [start] on; the empty
    string when [start] is past the end. *)
Fixpoint substr (start : nat) (s : string) : string :=
  match start, s with
  | O, _ => s
  | S _, EmptyString => EmptyString
  | S n, String _ s' => substr n s'
  end.

(** [s.replace(/c/g, d)] for a one-character pattern [c] and a one-character
    replacement [d]: every occurrence is replaced. *)
Fixpoint replace_all (c d : ascii) (s : string) : string :=
  match s with
  | EmptyString => EmptyString
  | String a s' => String (if Ascii.eqb a c then d else a) (replace_all c d s')
  end.

Definition dquote : ascii := Ascii.ascii_of_nat 34.
Definition squote : ascii := Ascii.ascii_of_nat 39.

(** A value of type [any], as [JSON.parse] builds it from the configuration
    file.  A number is kept as the digits that [Number.prototype.toString]
    prints for it, an object as its own properties. *)
#[warnings="-register-all"]
Inductive JSValue : Type :=
| JSUndefined
| JSNull
| JSBool (b : bool)
| JSNumber (repr : string)
| JSString (s : string)
| JSArray (elements : list JSValue)
| JSObject (properties : list (string * JSValue)).

(** [array.join(sep)] on strings. *)
Definition join (sep : string) (l : list string) : string := String.concat sep l.

(** What the abstract operation ToString, as applied by template literals,
    and [Array.prototype.join], which prints [null] and [undefined] elements
    as the empty string, yield for the values they can convert. *)
Fixpoint ToString (v : JSValue) : string :=
  match v with
  | JSUndefined => "undefined"
  | JSNull => "null"
  | JSBool true => "true"
  | JSBool false => "false"
  | JSNumber repr => repr
  | JSString s => s
  | JSArray elements =>
      join "," ((fun x => match x with
                          | JSUndefined | JSNull => ""
                          | _ => ToString x
                          end) <$> elements)
  | JSObject _ => "[object Object]"
  end.

(** ToString converts an object through its [toString] method.  An object
    with an own property of that name, whose value read from JSON is never a
    function, has no callable [toString], and the [valueOf] it inherits
    returns no primitive: the conversion throws a TypeError.  So does the
    conversion of an array that holds such an object. *)
Fixpoint converts (v : JSValue) : bool :=
  match v with
  | JSArray elements =>
      forallb (fun x => match x with
                        | JSUndefined | JSNull => true
                        | _ => converts x
                        end) elements
  | JSObject properties =>
      negb (existsb (fun p => String.eqb p.1 "toString") properties)
  | _ => true
  end.

Definition join_element (x : JSValue) : string :=
  match x with
  | JSUndefined | JSNull => ""
  | _ => ToString x
  end.

Definition Array_join (sep : string) (l : list JSValue) : string :=
  join sep (join_element <$> l).

Definition joinable (x : JSValue) : bool :=
  match x with
  | JSUndefined | JSNull => true
  | _ => converts x
  end.

(** ** The validator's error objects *)

(** [ajv.ErrorParameters]: the two variants the rules look into, and every
    other one. *)
Inductive ErrorParameters : Type :=
| AdditionalPropertiesParams (additionalProperty : string)
| EnumParams (allowedValues : list JSValue)
| OtherParams.

(** [ajv.ErrorObject], as the validator fills it for the parsers: with its
    [message] and with the [data] that failed. *)
Record ErrorObject : Type := {
  keyword : string;
  dataPath : string;
  message : string;
  params : ErrorParameters;
  data : JSValue
}.

(** Error objects live on the heap and are handled by reference: two entries
    of an array are the same error exactly when they are the same reference. *)
Definition ref : Type := nat.
Definition heap : Type := ref -> ErrorObject.

(** ** Computations: heap passing with exceptions *)

Inductive exn : Type := TypeError.

Inductive completion (A : Type) : Type :=
| Normal (a : A)
| Throw (e : exn).
Arguments Normal {A} a.
Arguments Throw {A} e.

Definition M (A : Type) : Type := heap -> heap * completion A.

Definition ret {A} (a : A) : M A := fun h => (h, Normal a).
Definition throw {A} (e : exn) : M A := fun h => (h, Throw e).
Definition bind {A B} (m : M A) (k : A -> M B) : M B :=
  fun h => match m h with
           | (h', Normal a) => k a h'
           | (h', Throw e) => (h', Throw e)
           end.

Notation "x <- m ;; k" := (bind m (fun x => k))
  (at level 100, m at next level, right associativity).

(** [error.field] *)
Definition get {A} (field : ErrorObject -> A) (error : ref) : M A :=
  fun h => (h, Normal (field (h error))).

(** [(params as ajv.AdditionalPropertiesParams).additionalProperty]: a missing
    property reads as [undefined]. *)
Definition additionalProperty_of (p : ErrorParameters) : JSValue :=
  match p with
  | AdditionalPropertiesParams a => JSString a
  | _ => JSUndefined
  end.

(** [`${value}`]: the conversion of a value inside a template literal. *)
Definition toString (value : JSValue) : M string :=
  if converts value then ret (ToString value) else throw TypeError.

(** [(params as ajv.EnumParams).allowedValues.join(sep)]: calling [join] on a
    missing property is a TypeError, and so is joining a value that does not
    convert. *)
Definition allowedValues_join (p : ErrorParameters) (sep : string) : M string :=
  match p with
  | EnumParams allowedValues =>
      if forallb joinable allowedValues then ret (Array_join sep allowedValues)
      else throw TypeError
  | _ => throw TypeError
  end.

(** [array.reduce(f, init)] and [array.map(f)] with an effectful callback. *)
Fixpoint reduce {A B} (f : B -> A -> M B) (l : list A) (init : B) : M B :=
  match l with
  | [] => ret init
  | x :: l' => b <- f init x ;; reduce f l' b
  end.

Fixpoint mapM {A B} (f : A -> M B) (l : list A) : M (list B) :=
  match l with
  | [] => ret []
  | x :: l' => y <- f x ;; ys <- mapM f l' ;; ret (y :: ys)
  end.

(** [if (s)] on a [string | null]: [null] and the empty string are falsy. *)
Definition truthy (s : option string) : bool :=
  match s with
  | Some (String _ _) => true
  | _ => false
  end.

(** ** The reporting sink *)

Record ProblemLocation : Type := { line : nat; column : nat }.

(** The arguments of one call [context.report(resource, location, message)]. *)
Record Diagnostic : Type := {
  d_resource : string;
  d_location : option ProblemLocation;
  d_text : string
}.

Definition context_report (resource : string) (location : option ProblemLocation)
    (message : string) : Diagnostic :=
  {| d_resource := resource; d_location := location; d_text := message |}.

(** An async function whose body is a sequence of
    [await context.report(...)] statements: one entry per statement, each
    computing the arguments of its call. *)
Abbreviation async := (list (M Diagnostic)).

(** ** lodash *)

(** [without(array, value)]: the entries of [array] that are not [value]
    (SameValueZero, which on objects is identity). *)
Definition without (array : list ref) (value : ref) : list ref :=
  filter (fun x => x <> value) array.

(** A plain object used as a dictionary: its own properties in creation
    order. *)
Abbreviation Dictionary V := (list (string * V)).

(** The object [groupBy] builds: its own properties, and its prototype,
    which is [Object.prototype] ([None]) or a one-element array [[e]]
    ([Some e]). *)
Record Grouped : Type := {
  own : Dictionary (list ref);
  proto : option ref
}.

(** [result[key].push(value)] when the object has the own property [key],
    [result[key] = [value]] on an ordinary key otherwise: the property is
    created after the others. *)
Fixpoint push_own (result : Dictionary (list ref)) (key : string) (value : ref)
    : Dictionary (list ref) :=
  match result with
  | [] => [(key, [value])]
  | (k, values) :: result' =>
      if String.eqb k key then (k, values ++ [value]) :: result'
      else (k, values) :: push_own result' key value
  end.

(** The aggregator of [groupBy]:
    [if (hasOwnProperty.call(result, key)) result[key].push(value);
     else result[key] = [value]].
    The key [__proto__] is never an own property, and assigning to it
    replaces the prototype of the object by the array [[value]]. *)
Definition aggregate (result : Grouped) (key : string) (value : ref) : Grouped :=
  if String.eqb key "__proto__"
  then {| own := own result; proto := Some value |}
  else {| own := push_own (own result) key value; proto := proto result |}.

(** [groupBy(collection, iteratee)], which starts from the empty object. *)
Definition groupBy (collection : list ref) (iteratee : ref -> M string) : M Grouped :=
  reduce (fun result value =>
            key <- iteratee value ;; ret (aggregate result key value))
         collection {| own := []; proto := None |}.

(** A property key is an array index when it is the canonical decimal
    numeral of an integer below [2^32 - 1]. *)
Definition digit (a : ascii) : option N :=
  let n := N_of_ascii a in
  if (48 <=? n)%N && (n <=? 57)%N then Some (n - 48)%N else None.

Fixpoint parse_digits (s : string) (acc : N) : option N :=
  match s with
  | EmptyString => Some acc
  | String a s' =>
      match digit a with
      | Some d => parse_digits s' (10 * acc + d)%N
      | None => None
      end
  end.

Definition array_index (key : string) : option N :=
  match key with
  | EmptyString => None
  | String a rest =>
      if Ascii.eqb a "0" && negb (String.eqb rest "") then None
      else match parse_digits key 0 with
           | Some n => if (n <? 4294967295)%N then Some n else None
           | None => None
           end
  end.

Definition index_le {V} (p q : string * V) : Prop :=
  (default 0 (array_index p.1) <= default 0 (array_index q.1))%N.

#[global] Instance index_le_dec {V} (p q : string * V) : Decision (index_le p q).
Proof. unfold index_le. apply _. Defined.

(** The order in which the own properties of an object are enumerated
    (OrdinaryOwnPropertyKeys): array-index keys in ascending numeric order,
    then the other keys in creation order. *)
Definition ownEntries {V} (object : Dictionary V) : Dictionary V :=
  merge_sort index_le (filter (fun p => is_Some (array_index p.1)) object)
  ++ filter (fun p => array_index p.1 = None) object.

(** [object[key]] on the own properties. *)
Fixpoint lookup_own {V} (key : string) (object : Dictionary V) : option V :=
  match object with
  | [] => None
  | (k, v) :: object' => if String.eqb k key then Some v else lookup_own key object'
  end.

(** What [map] hands to its callback: the array of a group or, from the
    prototype of an object that has become array-like, an error object. *)
Inductive collection : Type :=
| Values (values : list ref)
| NotIterable (value : ref).

(** [isArrayLike(object)]: [object.length] is a valid length.  An own
    [length] is the array of a group, which is no number; without it the
    length is the one inherited from an array prototype. *)
Definition isArrayLike (object : Grouped) : bool :=
  match proto object, lookup_own "length" (own object) with
  | Some _, None => true
  | _, _ => false
  end.

(** The values [map(object, iteratee)] visits, each with its key.  An
    array-like object is read at the indices below its length, here at index
    0 only: its own property [0] if it has one, the element of the prototype
    otherwise.  Any other object is read at its own keys, in enumeration
    order. *)
Definition visited (object : Grouped) : list (string * collection) :=
  match proto object with
  | Some e =>
      if isArrayLike object then
        [("0", match lookup_own "0" (own object) with
               | Some values => Values values
               | None => NotIterable e
               end)]
      else (fun p => (p.1, Values p.2)) <$> ownEntries (own object)
  | None => (fun p => (p.1, Values p.2)) <$> ownEntries (own object)
  end.

(** [map(object, iteratee)] *)
Definition map_object {B} (object : Grouped) (iteratee : collection -> B) : list B :=
  (fun p => iteratee p.2) <$> visited object.

(** ** Events of the parsers *)

Record Error : Type := { Error_message : string }.

(** [BabelConfigInvalid], [TypeScriptConfigInvalid] *)
Record ConfigInvalid : Type := { ci_error : Error; ci_resource : string }.

(** [BabelConfigInvalidSchema], [TypeScriptConfigInvalidSchema] *)
Record ConfigInvalidSchema : Type := { errors : list ref; resource : string }.

(** ** The babel rule: [babel-config/is-valid] *)

Module Babel.

Module errorKeywords.
Definition additionalProperties : string := "additionalProperties".
Definition enum : string := "enum".
Definition type : string := "type".
End errorKeywords.

(** Returns a readable error for 'additionalProperty' errors. *)
Definition generateAdditionalPropertiesError (error : ref) : M (option string) :=
  kw <- get keyword error ;;
  if negb (String.eqb kw errorKeywords.additionalProperties) then ret None else
  path <- get dataPath error ;;
  let property := substr 1 path in
  p <- get params error ;;
  let additionalProperty := additionalProperty_of p in
  msg <- get message error ;;
  ret (Some ("'" +:+ property +:+ "' " +:+ msg +:+ ". Additional property found '"
             +:+ ToString additionalProperty +:+ "'.")).

(** Returns a readable error for 'enum' errors. *)
Definition generateEnumError (error : ref) : M (option string) :=
  kw <- get keyword error ;;
  if negb (String.eqb kw errorKeywords.enum) then ret None else
  path <- get dataPath error ;;
  let property := substr 1 path in
  p <- get params error ;;
  msg <- get message error ;;
  allowed <- allowedValues_join p ", " ;;
  found <- get data error ;;
  shown <- toString found ;;
  ret (Some ("'" +:+ property +:+ "' " +:+ msg +:+ " '" +:+ allowed
             +:+ "'. Value found '" +:+ shown +:+ "'")).

Definition generateTypeError (error : ref) : M (option string) :=
  kw <- get keyword error ;;
  if negb (String.eqb kw errorKeywords.type) then ret None else
  path <- get dataPath error ;;
  let property := substr 1 path in
  msg <- get message error ;;
  ret (Some ("'" +:+ property +:+ "' " +:+ replace_all dquote squote msg +:+ ".")).

Definition errorGenerators : list (ref -> M (option string)) :=
  [generateAdditionalPropertiesError; generateEnumError; generateTypeError].

(** Returns a readable error message. *)
Definition prettyfy (error : ref) : M string :=
  init <- get message error ;;
  reduce (fun message generator =>
            newErrorMessage <- generator error ;;
            if truthy newErrorMessage
            then ret (default message newErrorMessage)
            else ret message)
         errorGenerators init.

(** The body of the loop of [report]: the call awaited for one error. *)
Definition report_body (errors : list ref) (resource : string) (error : ref)
    : M Diagnostic :=
  message <- prettyfy error ;;
  ret (context_report resource None message).

(** Report all the validation errors received.  The loop
    [for (const error of errors)] throws a TypeError as it starts on a value
    that is not iterable. *)
Definition report (errors : collection) (resource : string) : async :=
  match errors with
  | Values errors => report_body errors resource <$> errors
  | NotIterable _ => [throw TypeError]
  end.

Definition invalidJSONFile (babelConfigInvalid : ConfigInvalid) : async :=
  let error := ci_error babelConfigInvalid in
  let resource := ci_resource babelConfigInvalid in
  [ret (context_report resource None (Error_message error))].

(** The synchronous part of [invalidSchema]: the promises handed to
    [Promise.all], one started call of [report] per group. *)
Definition invalidSchema (fetchEnd : ConfigInvalidSchema) : M (list async) :=
  let errors := errors fetchEnd in
  let resource := resource fetchEnd in
  grouped <- groupBy errors (get dataPath) ;;
  let promises := map_object grouped (fun values => report values resource) in
  ret promises.

End Babel.

(** ** The typescript rule: [typescript-config/is-valid] *)

Module TypeScript.

(** Returns a readable error for 'additionalProperty' errors. *)
Definition generateAdditionalPropertiesError (error : ref) : M (option string) :=
  kw <- get keyword error ;;
  if negb (String.eqb kw "additionalProperties") then ret None else
  path <- get dataPath error ;;
  let property := substr 1 path in
  p <- get params error ;;
  let additionalProperty := additionalProperty_of p in
  msg <- get message error ;;
  ret (Some ("'" +:+ property +:+ "' " +:+ msg +:+ ". Additional property found '"
             +:+ ToString additionalProperty +:+ "'.")).

(** Returns a readable error for 'enum' errors. *)
Definition generateEnumError (error : ref) : M (option string) :=
  kw <- get keyword error ;;
  if negb (String.eqb kw "enum") then ret None else
  path <- get dataPath error ;;
  let property := substr 1 path in
  p <- get params error ;;
  msg <- get message error ;;
  allowed <- allowedValues_join p ", " ;;
  found <- get data error ;;
  shown <- toString found ;;
  ret (Some ("'" +:+ property +:+ "' " +:+ msg +:+ " '" +:+ allowed
             +:+ "'. Value found '" +:+ shown +:+ "'")).

(** Returns a readable error for 'pattern' errors. *)
Definition generatePatternError (error : ref) : M (option string) :=
  kw <- get keyword error ;;
  if negb (String.eqb kw "pattern") then ret None else
  path <- get dataPath error ;;
  let property := substr 1 path in
  msg <- get message error ;;
  found <- get data error ;;
  shown <- toString found ;;
  ret (Some ("'" +:+ property +:+ "' " +:+ replace_all dquote squote msg
             +:+ ". Value found '" +:+ shown +:+ "'")).

Definition errorGenerators : list (ref -> M (option string)) :=
  [generateAdditionalPropertiesError; generateEnumError; generatePatternError].

(** Returns a readable error message. *)
Definition prettyfy (error : ref) : M string :=
  init <- get message error ;;
  reduce (fun message generator =>
            newErrorMessage <- generator error ;;
            if truthy newErrorMessage
            then ret (default message newErrorMessage)
            else ret message)
         errorGenerators init.

(** The body of the loop of [report]: the call awaited for one error.  When
    the error is an 'anyOf' the message is built with the other errors. *)
Definition report_body (errors : list ref) (resource : string) (error : ref)
    : M Diagnostic :=
  kw <- get keyword error ;;
  if String.eqb kw "anyOf" then
    let otherErrors := without errors error in
    results <- mapM prettyfy otherErrors ;;
    ret (context_report resource None (join " or " results))
  else
    message <- prettyfy error ;;
    ret (context_report resource None message).

(** Report all the validation errors received.  The loop
    [for (const error of errors)] throws a TypeError as it starts on a value
    that is not iterable. *)
Definition report (errors : collection) (resource : string) : async :=
  match errors with
  | Values errors => report_body errors resource <$> errors
  | NotIterable _ => [throw TypeError]
  end.

Definition invalidJSONFile (typeScriptConfigInvalid : ConfigInvalid) : async :=
  let error := ci_error typeScriptConfigInvalid in
  let resource := ci_resource typeScriptConfigInvalid in
  [ret (context_report resource None (Error_message error))].

(** The synchronous part of [invalidSchema]: the promises handed to
    [Promise.all], one started call of [report] per group. *)
Definition invalidSchema (fetchEnd : ConfigInvalidSchema) : M (list async) :=
  let errors := errors fetchEnd in
  let resource := resource fetchEnd in
  grouped <- groupBy errors (get dataPath) ;;
  let promises := map_object grouped (fun values => report values resource) in
  ret promises.

End TypeScript.

(** ** Dialects *)

Inductive dialect : Type := babel | typescript.

Definition prettyfy_of (d : dialect) : ref -> M string :=
  match d with
  | babel => Babel.prettyfy
  | typescript => TypeScript.prettyfy
  end.

Definition report_body_of (d : dialect) : list ref -> string -> ref -> M Diagnostic :=
  match d with
  | babel => Babel.report_body
  | typescript => TypeScript.report_body
  end.

Definition report_of (d : dialect) : collection -> string -> async :=
  match d with
  | babel => Babel.report
  | typescript => TypeScript.report
  end.

Definition invalidJSONFile_of (d : dialect) : ConfigInvalid -> async :=
  match d with
  | babel => Babel.invalidJSONFile
  | typescript => TypeScript.invalidJSONFile
  end.

Definition invalidSchema_of (d : dialect) : ConfigInvalidSchema -> M (list async) :=
  match d with
  | babel => Babel.invalidSchema
  | typescript => TypeScript.invalidSchema
  end.

(** ** Running the handlers: promises and the sink *)

(** A started call of an async function. *)
Inductive task : Type :=
| Suspended (rest : async)  (* awaiting the sink's answer to its last call *)
| Returned                  (* its promise is fulfilled *)
| Thrown.                   (* its promise is rejected *)

Inductive promise : Type := Pending | Fulfilled | Rejected.

(** The heap, the calls the sink has received so far (each tagged with the
    task that made it), the started calls of [report], and the promise of the
    handler. *)
Record world : Type := {
  w_heap : heap;
  w_sink : list (nat * Diagnostic);
  w_tasks : list task;
  w_handler : promise
}.

(** Task [i] runs the statements [rest] up to its next [await]: it computes
    the arguments of the next call, makes the call and suspends; it returns
    when nothing is left, and throws when the computation throws. *)
Definition resume (i : nat) (rest : async) (w : world) : world * task :=
  match rest with
  | [] => (w, Returned)
  | call :: rest' =>
      match call (w_heap w) with
      | (h', Normal d) =>
          ({| w_heap := h'; w_sink := w_sink w ++ [(i, d)];
              w_tasks := w_tasks w; w_handler := w_handler w |}, Suspended rest')
      | (h', Throw _) =>
          ({| w_heap := h'; w_sink := w_sink w;
              w_tasks := w_tasks w; w_handler := w_handler w |}, Thrown)
      end
  end.

Definition set_task (i : nat) (t : task) (w : world) : world :=
  {| w_heap := w_heap w; w_sink := w_sink w;
     w_tasks := <[i := t]> (w_tasks w); w_handler := w_handler w |}.

(** Calling an async function starts a task, which runs up to its first
    [await] before the caller goes on. *)
Definition spawn (w : world) (body : async) : world :=
  let i := length (w_tasks w) in
  let '(w', t) := resume i body w in
  {| w_heap := w_heap w'; w_sink := w_sink w';
     w_tasks := w_tasks w' ++ [t]; w_handler := w_handler w' |}.

Definition start (h : heap) : world :=
  {| w_heap := h; w_sink := []; w_tasks := []; w_handler := Pending |}.

(** An async function called as the handler of an event. *)
Definition call_async (body : async) (h : heap) : world := spawn (start h) body.

(** [await Promise.all(promises)] at the end of a handler whose synchronous
    part computes [promises]. *)
Definition await_all (handler : M (list async)) (h : heap) : world :=
  match handler h with
  | (h', Normal promises) => foldl spawn (start h') promises
  | (h', Throw _) =>
      {| w_heap := h'; w_sink := []; w_tasks := []; w_handler := Rejected |}
  end.

(** What happens next is chosen by the sink and the job queue: the sink
    fulfils ([Ack]) or rejects ([Nack]) the promise a task awaits, or
    [Promise.all] settles the handler ([Settle]): rejected once a task has
    thrown, fulfilled once every task has returned. *)
Inductive event : Type := Ack (i : nat) | Nack (i : nat) | Settle.

Definition is_thrown (t : task) : bool :=
  match t with Thrown => true | _ => false end.
Definition is_returned (t : task) : bool :=
  match t with Returned => true | _ => false end.

Definition step (ev : event) (w : world) : option world :=
  match ev with
  | Ack i =>
      match w_tasks w !! i with
      | Some (Suspended rest) => let '(w', t) := resume i rest w in Some (set_task i t w')
      | _ => None
      end
  | Nack i =>
      match w_tasks w !! i with
      | Some (Suspended _) => Some (set_task i Thrown w)
      | _ => None
      end
  | Settle =>
      match w_handler w with
      | Pending =>
          if existsb is_thrown (w_tasks w) then
            Some {| w_heap := w_heap w; w_sink := w_sink w;
                    w_tasks := w_tasks w; w_handler := Rejected |}
          else if forallb is_returned (w_tasks w) then
            Some {| w_heap := w_heap w; w_sink := w_sink w;
                    w_tasks := w_tasks w; w_handler := Fulfilled |}
          else None
      | _ => None
      end
  end.

Fixpoint run (schedule : list event) (w : world) : option world :=
  match schedule with
  | [] => Some w
  | ev :: schedule' =>
      match step ev w with
      | Some w' => run schedule' w'
      | None => None
      end
  end.

(** The diagnostics the sink received from task [i], in order. *)
Definition emitted (i : nat) (w : world) : list Diagnostic :=
  (filter (fun p => p.1 = i) (w_sink w)).*2.

(** ** Vocabulary of the properties *)

(** The keywords that have a template in the table of each dialect. *)
Definition declared_keywords (d : dialect) : list string :=
  match d with
  | babel => [Babel.errorKeywords.additionalProperties; Babel.errorKeywords.enum;
              Babel.errorKeywords.type]
  | typescript => ["additionalProperties"; "enum"; "pattern"]
  end.

(** The property shown by the templates for a [dataPath]. *)
Definition displayed_property (path : string) : string :=
  match path with
  | EmptyString => EmptyString
  | String _ s => s
  end.

(** A computation is read-only when it hands back the heap it was given. *)
Definition readonly {A} (m : M A) : Prop := forall h, (m h).1 = h.

(** ** Grouping, as the specification words it *)

(** The distinct values of a list, in the order of their first occurrence. *)
Fixpoint firstSeen (l : list string) : list string :=
  match l with
  | [] => []
  | k :: l' => k :: filter (fun k' => k' <> k) (firstSeen l')
  end.

(** The errors of a list that sit at a given dataPath, in the order of the
    list. *)
Definition errors_at (h : heap) (path : string) (errors : list ref) : list ref :=
  filter (fun r => dataPath (h r) = path) errors.

(** One group per distinct dataPath, in first-seen order, each holding its
    errors in their original relative order. *)
Definition stable_partition (h : heap) (errors : list ref) : Dictionary (list ref) :=
  (fun path => (path, errors_at h path errors))
    <$> firstSeen ((fun r => dataPath (h r)) <$> errors).

(** What [groupBy] builds from the errors: the stable partition of those
    whose dataPath is not [__proto__], under a prototype that holds the last
    of the others, if there is one. *)
Definition grouped_of (h : heap) (errors : list ref) : Grouped :=
  {| own := stable_partition h (filter (fun r => dataPath (h r) <> "__proto__") errors);
     proto := last (errors_at h "__proto__" errors) |}.

(** The dataPaths of the validator: the empty path of the root, or a path
    that starts with a dot, a bracket or, for JSON pointers, a slash. *)
Definition validator_path (path : string) : Prop :=
  match path with
  | EmptyString => True
  | String c _ => c = "."%char \/ c = "["%char \/ c = "/"%char
  end.

(** ** Reading a run *)

(** What a call yields on the heap [h]. *)
Definition outcome (h : heap) (call : M Diagnostic) : completion Diagnostic :=
  (call h).2.

(** A task running [body] that has made the calls [made] is at the right
    place: the statements it has run and the ones left make up its body, and
    the sink received the diagnostics of the ones it has run, in order. *)
Definition task_ok (h : heap) (body : async) (made : list Diagnostic) (t : task) : Prop :=
  match t with
  | Suspended rest =>
      exists done, body = done ++ rest /\ Normal <$> made = outcome h <$> done
  | Returned => Normal <$> made = outcome h <$> body
  | Thrown => True
  end.

(** A world reached by the tasks of [bodies] on the heap [h]. *)
Definition consistent (h : heap) (bodies : list async) (w : world) : Prop :=
  w_heap w = h
  /\ length (w_tasks w) = length bodies
  /\ (forall i body t,
        bodies !! i = Some body -> w_tasks w !! i = Some t ->
        task_ok h body (emitted i w) t)
  /\ (forall p, p ∈ w_sink w -> p.1 < length bodies)
  /\ (w_handler w = Fulfilled -> Forall (fun t => t = Returned) (w_tasks w)).

(** The acknowledgements a task still needs before it returns. *)
Definition waiting (t : task) : nat :=
  match t with
  | Suspended rest => S (length rest)
  | _ => 0
  end.

(** A world in which no task has thrown and no call left will throw. *)
Definition healthy (h : heap) (w : world) : Prop :=
  w_heap w = h
  /\ w_handler w = Pending
  /\ Forall (fun t => match t with
                      | Suspended rest =>
                          Forall (fun call => readonly call
                                              /\ exists d, outcome h call = Normal d) rest
                      | Returned => True
                      | Thrown => False
                      end) (w_tasks w).

(** ** Fixtures

    The errors of the fixtures of the rules' tests: the three errors reported
    for [invalidschemapattern], the one of [invalidschemaadditional], a type
    error of a babel configuration, an 'anyOf' error at another dataPath, and
    an error without template. *)
Definition fixtures : heap := fun r =>
  match r with
  | 0 => {| keyword := "enum"; dataPath := ".compilerOptions.target";
            message := "should be equal to one of the allowed values";
            params := EnumParams (JSString <$> ["es3"; "es5"; "es6"; "es2015";
                                               "es2016"; "es2017"; "esnext"]);
            data := JSString "invalid" |}
  | 1 => {| keyword := "pattern"; dataPath := ".compilerOptions.target";
            message := "should match pattern " +:+ String dquote "^([eE][sS]([356]))$"
                       +:+ String dquote "";
            params := OtherParams; data := JSString "invalid" |}
  | 2 => {| keyword := "anyOf"; dataPath := ".compilerOptions.target";
            message := "should match some schema in anyOf";
            params := OtherParams; data := JSString "invalid" |}
  | 3 => {| keyword := "additionalProperties"; dataPath := ".compilerOptions";
            message := "should NOT have additional properties";
            params := AdditionalPropertiesParams "invalidProperty";
            data := JSObject [] |}
  | 4 => {| keyword := "type"; dataPath := ".moduleId";
            message := "should be string"; params := OtherParams;
            data := JSNumber "1" |}
  | 5 => {| keyword := "anyOf"; dataPath := ".compilerOptions.lib";
            message := "should match some schema in anyOf";
            params := OtherParams; data := JSString "invalid" |}
  | _ => {| keyword := "required"; dataPath := "";
            message := "should have required property 'compilerOptions'";
            params := OtherParams; data := JSObject [] |}
  end.


(** The event of the [invalidschemapattern] fixture, and an event whose
    'anyOf' error sits at a dataPath of its own. *)
Definition pattern_event : ConfigInvalidSchema :=
  {| errors := [0; 1; 2]; resource := "tsconfig.json" |}.

Definition lone_anyOf_event : ConfigInvalidSchema :=
  {| errors := [0; 5]; resource := "tsconfig.json" |}.

(** The event of the [invalidjson] fixture. *)
Definition invalidjson_event : ConfigInvalid :=
  {| ci_error := {| Error_message := "Unexpected token ' in JSON at position 148" |};
     ci_resource := "tsconfig.json" |}.

(** A type error whose dataPath has no leading separator. *)
Definition bare_path : heap := fun _ =>
  {| keyword := "type"; dataPath := "moduleId"; message := "should be string";
     params := OtherParams; data := JSNumber "1" |}.

(** ** Vocabulary of the further properties *)

(** The table of generators of each dialect. *)
Definition generators_of (d : dialect) : list (ref -> M (option string)) :=
  match d with
  | babel => Babel.errorGenerators
  | typescript => TypeScript.errorGenerators
  end.

(** Keys compared by the array index they spell. *)
Definition key_le (k1 k2 : string) : Prop :=
  (default 0 (array_index k1) <= default 0 (array_index k2))%N.

(** Every task has made, in order, the calls of a first part of its body. *)
Definition in_order (h : heap) (bodies : list async) (w : world) : Prop :=
  forall i body,
    bodies !! i = Some body ->
    exists done rest, body = done ++ rest /\ Normal <$> emitted i w = outcome h <$> done.

(** The steps a world can still take: one acknowledgement per statement
    left to the suspended tasks, and the settling of the handler. *)
Definition fuel (w : world) : nat :=
  sum_list (waiting <$> w_tasks w)
  + match w_handler w with Pending => 1 | _ => 0 end.

(** The calls made while the tasks of [bodies] are started, the first of
    them being task [m]. *)
Fixpoint first_calls (h : heap) (m : nat) (bodies : list async) : list (nat * Diagnostic) :=
  match bodies with
  | [] => []
  | body :: bodies' =>
      match body with
      | [] => []
      | call :: _ =>
          match outcome h call with
          | Normal d => [(m, d)]
          | Throw _ => []
          end
      end ++ first_calls h (S m) bodies'
  end.

(** An enum error that lacks its [allowedValues], after a well-formed one at
    another dataPath. *)
Definition malformed_enum : heap := fun r =>
  match r with
  | 0 => fixtures 3
  | _ => {| keyword := "enum"; dataPath := ".compilerOptions.target";
            message := "should be equal to one of the allowed values";
            params := OtherParams; data := JSString "invalid" |}
  end.

Definition malformed_event : ConfigInvalidSchema :=
  {| errors := [0; 1]; resource := "tsconfig.json" |}.

(** The event of the [invalidschemaadditional] fixture followed by the three
    errors of [invalidschemapattern]. *)
Definition mixed_event : ConfigInvalidSchema :=
  {| errors := [3; 0; 1; 2]; resource := "tsconfig.json" |}.

Definition empty_event : ConfigInvalidSchema :=
  {| errors := []; resource := "tsconfig.json" |}.

(** Two errors that sit at the array-index dataPaths "1" and "0". *)
Definition index_paths : heap := fun r =>
  {| keyword := "type"; dataPath := if Nat.eqb r 0 then "1" else "0";
     message := "should be string"; params := OtherParams; data := JSNull |}.

(** Errors at the dataPaths ".a", "__proto__", ".a" and, for the error 3,
    "length". *)
Definition prototype_paths : heap := fun r =>
  {| keyword := "type";
     dataPath := match r with
                 | 1 => "__proto__"
                 | 3 => "length"
                 | _ => ".a"
                 end;
     message := "should be string"; params := OtherParams; data := JSNull |}.

Definition prototype_event : ConfigInvalidSchema :=
  {| errors := [0; 1; 2]; resource := "tsconfig.json" |}.

Definition prototype_length_event : ConfigInvalidSchema :=
  {| errors := [0; 1; 2; 3]; resource := "tsconfig.json" |}.

(** * Properties *)

(** ** Strings *)

Lemma append_assoc (s1 s2 s3 : string) : (s1 +:+ s2) +:+ s3 = s1 +:+ s2 +:+ s3.
Proof.
  induction s1 as [|a s1 IH]; [reflexivity |].
  change (String a ((s1 +:+ s2) +:+ s3) = String a (s1 +:+ s2 +:+ s3)).
  now rewrite IH.
Qed.

Lemma substr_1_empty : substr 1 "" = "".
Proof. reflexivity. Qed.

Lemma substr_1_cons (c : ascii) (s : string) : substr 1 (String c s) = s.
Proof. reflexivity. Qed.

(** [replace_all c d] rewrites every [c] into [d] and nothing else. *)
Lemma replace_all_get (c d : ascii) (s : string) (n : nat) :
  String.get n (replace_all c d s)
  = (fun a => if Ascii.eqb a c then d else a) <$> String.get n s.
Proof.
  revert n; induction s as [|a s IH]; intros [|n]; simpl; try reflexivity.
  apply IH.
Qed.


Lemma ToString_array (l : list JSValue) : ToString (JSArray l) = Array_join "," l.
Proof. reflexivity. Qed.

(** ** Read-only computations *)

Lemma readonly_ret {A} (a : A) : readonly (ret a).
Proof. intros h; reflexivity. Qed.

Lemma readonly_throw {A} (e : exn) : readonly (@throw A e).
Proof. intros h; reflexivity. Qed.

Lemma readonly_get {A} (field : ErrorObject -> A) (r : ref) : readonly (get field r).
Proof. intros h; reflexivity. Qed.

Lemma readonly_bind {A B} (m : M A) (k : A -> M B) :
  readonly m -> (forall a, readonly (k a)) -> readonly (bind m k).
Proof.
  intros Hm Hk h. unfold bind. specialize (Hm h).
  destruct (m h) as [h' [a|e]]; simpl in *; subst h'; [apply Hk | reflexivity].
Qed.

Lemma readonly_if {A} (b : bool) (m1 m2 : M A) :
  readonly m1 -> readonly m2 -> readonly (if b then m1 else m2).
Proof. now destruct b. Qed.

Lemma readonly_reduce {A B} (f : B -> A -> M B) (l : list A) (init : B) :
  (forall b a, readonly (f b a)) -> readonly (reduce f l init).
Proof.
  intros Hf; revert init; induction l as [|x l IH]; intros init; simpl.
  - apply readonly_ret.
  - apply readonly_bind; [apply Hf | intros b; apply IH].
Qed.

Lemma readonly_mapM {A B} (f : A -> M B) (l : list A) :
  (forall a, readonly (f a)) -> readonly (mapM f l).
Proof.
  intros Hf; induction l as [|x l IH]; simpl.
  - apply readonly_ret.
  - apply readonly_bind; [apply Hf | intros y].
    apply readonly_bind; [apply IH | intros ys; apply readonly_ret].
Qed.

Lemma readonly_allowedValues_join (p : ErrorParameters) (sep : string) :
  readonly (allowedValues_join p sep).
Proof.
  destruct p as [a|allowedValues|]; simpl; auto using readonly_throw.
  destruct (forallb joinable allowedValues); auto using readonly_ret, readonly_throw.
Qed.

Lemma readonly_toString (value : JSValue) : readonly (toString value).
Proof. unfold toString. destruct (converts value); [apply readonly_ret | apply readonly_throw]. Qed.

Create HintDb readonly.
#[global] Hint Resolve readonly_ret readonly_throw readonly_get readonly_if
  readonly_allowedValues_join readonly_toString : readonly.

Ltac readonly_steps :=
  repeat first
    [ progress eauto with readonly
    | apply readonly_if
    | apply readonly_bind; [| intros ?]
    | apply readonly_reduce; intros ? ?
    | apply readonly_mapM; intros ? ].

(** The result of a read-only computation is its second component. *)
Lemma readonly_run {A} (m : M A) (h : heap) : readonly m -> m h = (h, (m h).2).
Proof. intros Hm. specialize (Hm h). destruct (m h); simpl in *; now subst. Qed.

Lemma readonly_generators (d : dialect) (generator : ref -> M (option string)) (r : ref) :
  generator ∈ match d with
              | babel => Babel.errorGenerators
              | typescript => TypeScript.errorGenerators
              end ->
  readonly (generator r).
Proof.
  destruct d; cbv [Babel.errorGenerators TypeScript.errorGenerators];
    rewrite !elem_of_cons, elem_of_nil; intros [->|[->|[->|[]]]];
    cbv [Babel.generateAdditionalPropertiesError Babel.generateEnumError
         Babel.generateTypeError TypeScript.generateAdditionalPropertiesError
         TypeScript.generateEnumError TypeScript.generatePatternError];
    readonly_steps.
Qed.

Lemma readonly_prettyfy (d : dialect) (r : ref) : readonly (prettyfy_of d r).
Proof.
  destruct d; cbv [prettyfy_of Babel.prettyfy TypeScript.prettyfy];
    (apply readonly_bind; [apply readonly_get | intros init]);
    generalize init; clear init.
  - pose proof (readonly_generators babel) as Hg; simpl in Hg.
    induction Babel.errorGenerators as [|g gs IH]; intros init; simpl.
    + apply readonly_ret.
    + apply readonly_bind.
      * apply readonly_bind; [apply Hg; left | intros ?; readonly_steps].
      * intros b. apply IH. intros g' r' Hin. apply Hg. now right.
  - pose proof (readonly_generators typescript) as Hg; simpl in Hg.
    induction TypeScript.errorGenerators as [|g gs IH]; intros init; simpl.
    + apply readonly_ret.
    + apply readonly_bind.
      * apply readonly_bind; [apply Hg; left | intros ?; readonly_steps].
      * intros b. apply IH. intros g' r' Hin. apply Hg. now right.
Qed.

(** ** The formatter chain *)

Lemma truthy_quoted (s : string) : truthy (Some ("'" +:+ s)) = true.
Proof. reflexivity. Qed.

Ltac unfold_formatters :=
  cbv [prettyfy_of Babel.prettyfy TypeScript.prettyfy
       Babel.errorGenerators TypeScript.errorGenerators
       Babel.generateAdditionalPropertiesError Babel.generateEnumError
       Babel.generateTypeError TypeScript.generateAdditionalPropertiesError
       TypeScript.generateEnumError TypeScript.generatePatternError
       Babel.errorKeywords.additionalProperties Babel.errorKeywords.enum
       Babel.errorKeywords.type
       allowedValues_join toString reduce bind get ret throw].

(** Runs the chain once the keyword (and, where needed, the params of the
    error and whether its values convert) are known from the hypotheses. *)
Ltac run_formatters :=
  unfold_formatters;
  repeat first
    [ match goal with H : keyword _ = _ |- _ => rewrite H end
    | match goal with H : params _ = _ |- _ => rewrite H end
    | match goal with H : converts _ = _ |- _ => rewrite H end
    | match goal with H : forallb joinable _ = _ |- _ => rewrite H end
    | match goal with H : (_ =? _)%string = false |- _ => rewrite H end
    | rewrite truthy_quoted
    | progress change (truthy None) with false
    | progress cbn -[truthy] ].

Lemma prettyfy_additionalProperties (d : dialect) (error : ref) (h : heap) :
  keyword (h error) = "additionalProperties" ->
  prettyfy_of d error h
  = (h, Normal ("'" +:+ substr 1 (dataPath (h error)) +:+ "' " +:+ message (h error)
                +:+ ". Additional property found '"
                +:+ ToString (additionalProperty_of (params (h error))) +:+ "'.")).
Proof. intros Hkw. destruct d; run_formatters; reflexivity. Qed.

Lemma prettyfy_enum (d : dialect) (error : ref) (h : heap) (allowedValues : list JSValue) :
  keyword (h error) = "enum" ->
  params (h error) = EnumParams allowedValues ->
  forallb joinable allowedValues = true ->
  converts (data (h error)) = true ->
  prettyfy_of d error h
  = (h, Normal ("'" +:+ substr 1 (dataPath (h error)) +:+ "' " +:+ message (h error)
                +:+ " '" +:+ Array_join ", " allowedValues
                +:+ "'. Value found '" +:+ ToString (data (h error)) +:+ "'")).
Proof. intros Hkw Hp Hallowed Hdata. destruct d; run_formatters; reflexivity. Qed.

(** An [enum] error without [allowedValues] makes the chain throw. *)
Lemma prettyfy_enum_throws (d : dialect) (error : ref) (h : heap) :
  keyword (h error) = "enum" ->
  (forall allowedValues, params (h error) <> EnumParams allowedValues) ->
  prettyfy_of d error h = (h, Throw TypeError).
Proof.
  intros Hkw Hp.
  destruct (params (h error)) as [a|l|] eqn:E; [| now destruct (Hp l) |];
    destruct d; run_formatters; reflexivity.
Qed.

(** So does an [enum] error one of whose values has no string conversion. *)
Lemma prettyfy_enum_unprintable (d : dialect) (error : ref) (h : heap)
    (allowedValues : list JSValue) :
  keyword (h error) = "enum" ->
  params (h error) = EnumParams allowedValues ->
  forallb joinable allowedValues = false \/ converts (data (h error)) = false ->
  prettyfy_of d error h = (h, Throw TypeError).
Proof.
  intros Hkw Hp [Hallowed|Hdata].
  - destruct d; run_formatters; reflexivity.
  - destruct (forallb joinable allowedValues) eqn:Hallowed;
      destruct d; run_formatters; reflexivity.
Qed.

Lemma prettyfy_type (error : ref) (h : heap) :
  keyword (h error) = "type" ->
  prettyfy_of babel error h
  = (h, Normal ("'" +:+ substr 1 (dataPath (h error)) +:+ "' "
                +:+ replace_all dquote squote (message (h error)) +:+ ".")).
Proof. intros Hkw. run_formatters. reflexivity. Qed.

Lemma prettyfy_pattern (error : ref) (h : heap) :
  keyword (h error) = "pattern" ->
  converts (data (h error)) = true ->
  prettyfy_of typescript error h
  = (h, Normal ("'" +:+ substr 1 (dataPath (h error)) +:+ "' "
                +:+ replace_all dquote squote (message (h error))
                +:+ ". Value found '" +:+ ToString (data (h error)) +:+ "'")).
Proof. intros Hkw Hdata. run_formatters. reflexivity. Qed.

Lemma prettyfy_pattern_unprintable (error : ref) (h : heap) :
  keyword (h error) = "pattern" ->
  converts (data (h error)) = false ->
  prettyfy_of typescript error h = (h, Throw TypeError).
Proof. intros Hkw Hdata. run_formatters. reflexivity. Qed.


Lemma substr_1_displayed (path : string) : substr 1 path = displayed_property path.
Proof. destruct path; reflexivity. Qed.




(** C4: an error whose keyword has no template in the dialect's table is
    rendered as its own [message], unchanged, and the chain does not throw. *)
Theorem unknown_keyword_fallback (d : dialect) (error : ref) (h : heap) :
  keyword (h error) ∉ declared_keywords d ->
  prettyfy_of d error h = (h, Normal (message (h error))).
Proof.
  intros Hkw.
  assert (forall k, k ∈ declared_keywords d -> (keyword (h error) =? k)%string = false)
    as Hne.
  { intros k Hk. apply String.eqb_neq. intros Heq. apply Hkw. now rewrite Heq. }
  destruct d; cbv [declared_keywords] in Hne;
    pose proof (Hne _ (list_elem_of_here _ _)) as H1;
    pose proof (Hne _ (list_elem_of_further _ _ _ (list_elem_of_here _ _))) as H2;
    pose proof (Hne _ (list_elem_of_further _ _ _
                         (list_elem_of_further _ _ _ (list_elem_of_here _ _)))) as H3;
    cbv [Babel.errorKeywords.additionalProperties Babel.errorKeywords.enum
         Babel.errorKeywords.type] in H1, H2, H3;
    clear Hne Hkw; run_formatters; reflexivity.
Qed.

Lemma unknown_keyword_fallback_witness :
  prettyfy_of babel 2 fixtures = (fixtures, Normal "should match some schema in anyOf").
Proof.
  apply (unknown_keyword_fallback babel 2 fixtures).
  cbv [declared_keywords Babel.errorKeywords.additionalProperties
       Babel.errorKeywords.enum Babel.errorKeywords.type].
  rewrite !elem_of_cons, elem_of_nil. simpl. intros [H|[H|[H|[]]]]; discriminate H.
Defined.

(** C6: an [additionalProperties] error is rendered, in both dialects, as
    ['<property>' <message>. Additional property found '<additionalProperty>'.],
    the property being the dataPath without its first character and the
    additional property the one of the error's params. *)
Theorem additionalProperties_template (d : dialect) (error : ref) (h : heap) :
  keyword (h error) = "additionalProperties" ->
  prettyfy_of d error h
  = (h, Normal ("'" +:+ substr 1 (dataPath (h error)) +:+ "' " +:+ message (h error)
                +:+ ". Additional property found '"
                +:+ ToString (additionalProperty_of (params (h error))) +:+ "'."))
  /\ (forall additionalProperty,
        params (h error) = AdditionalPropertiesParams additionalProperty ->
        ToString (additionalProperty_of (params (h error))) = additionalProperty).
Proof.
  intros Hkw. split.
  - now apply prettyfy_additionalProperties.
  - intros a ->. reflexivity.
Qed.

Lemma additionalProperties_template_witness :
  prettyfy_of typescript 3 fixtures
  = (fixtures,
     Normal "'compilerOptions' should NOT have additional properties. Additional property found 'invalidProperty'.").
Proof. exact (proj1 (additionalProperties_template typescript 3 fixtures eq_refl)). Defined.

(** C7: a [type] error of the babel dialect is rendered as
    ['<property>' <message>.] with every double quote of the message turned
    into a single quote; a [pattern] error of the typescript dialect is
    rendered in the same shape followed by [ Value found '<data>'], the data
    being a value that converts to a string (the validator applies [pattern]
    to strings only, which all do). *)
Theorem type_and_pattern_templates :
  let shape (e : ErrorObject) :=
    "'" +:+ substr 1 (dataPath e) +:+ "' "
    +:+ replace_all dquote squote (message e) +:+ "." in
  (forall error h,
     keyword (h error) = "type" ->
     prettyfy_of babel error h = (h, Normal (shape (h error))))
  /\ (forall error h,
        keyword (h error) = "pattern" ->
        converts (data (h error)) = true ->
        prettyfy_of typescript error h
        = (h, Normal (shape (h error)
                      +:+ " Value found '" +:+ ToString (data (h error)) +:+ "'")))
  /\ (forall text, converts (JSString text) = true /\ ToString (JSString text) = text)
  /\ (forall s n,
        String.get n (replace_all dquote squote s)
        = (fun a => if Ascii.eqb a dquote then squote else a) <$> String.get n s).
Proof.
  intros shape. subst shape. split; [| split; [| split]].
  - intros error h Hkw. now apply prettyfy_type.
  - intros error h Hkw Hdata. rewrite prettyfy_pattern by assumption.
    rewrite !append_assoc. reflexivity.
  - intros text. split; reflexivity.
  - intros s n. apply replace_all_get.
Qed.

Lemma type_and_pattern_templates_witness :
  prettyfy_of babel 4 fixtures = (fixtures, Normal "'moduleId' should be string.")
  /\ prettyfy_of typescript 1 fixtures
     = (fixtures,
        Normal "'compilerOptions.target' should match pattern '^([eE][sS]([356]))$'. Value found 'invalid'").
Proof.
  split.
  - exact (proj1 type_and_pattern_templates 4 fixtures eq_refl).
  - exact (proj1 (proj2 type_and_pattern_templates) 1 fixtures eq_refl eq_refl).
Defined.

(** C9: formatting an error hands back the heap untouched, so the error
    record is what it was, and formatting it a second time yields the same
    output. *)
Theorem formatting_is_repeatable (d : dialect) (error : ref) (h : heap) :
  let first := prettyfy_of d error h in
  let second := prettyfy_of d error first.1 in
  first.1 = h /\ first.1 error = h error /\ second.1 = h /\ second.2 = first.2.
Proof.
  cbv zeta. pose proof (readonly_prettyfy d error h) as Hh.
  rewrite Hh. auto.
Qed.

(** C10: the property shown by every declared template is the dataPath
    without its first character, whatever that character is, and the empty
    string for an empty dataPath; the rest of the rendering does not depend
    on the dataPath. *)
Theorem property_drops_first_character
    (d : dialect) (kw msg : string) (p : ErrorParameters) (v : JSValue) :
  kw ∈ declared_keywords d ->
  exists rest : string,
    forall (path : string) (error : ref) (h : heap) (out : string),
      h error = {| keyword := kw; dataPath := path; message := msg;
                   params := p; data := v |} ->
      (prettyfy_of d error h).2 = Normal out ->
      out = "'" +:+ displayed_property path +:+ "' " +:+ rest
      /\ displayed_property "" = ""
      /\ forall c s, displayed_property (String c s) = s.
Proof.
  intros Hkw.
  assert (forall (error : ref) (h : heap) path kw',
            h error = {| keyword := kw'; dataPath := path; message := msg;
                         params := p; data := v |} ->
            keyword (h error) = kw' /\ dataPath (h error) = path
            /\ message (h error) = msg /\ params (h error) = p /\ data (h error) = v)
    as Hfields by (intros error h path kw' ->; repeat split).
  assert (kw = "additionalProperties" \/ kw = "enum"
          \/ (d = babel /\ kw = "type") \/ (d = typescript /\ kw = "pattern"))
    as [->|[->|[[-> ->]|[-> ->]]]].
  { destruct d; cbv [declared_keywords Babel.errorKeywords.additionalProperties
                     Babel.errorKeywords.enum Babel.errorKeywords.type] in Hkw;
      rewrite !elem_of_cons, elem_of_nil in Hkw; intuition. }
  - eexists. intros path error h out He.
    destruct (Hfields _ _ _ _ He) as (Hk & Hd & Hm & Hp & Hv).
    rewrite prettyfy_additionalProperties by exact Hk.
    rewrite Hd, Hm, Hp, substr_1_displayed. cbn [snd]. intros [= <-].
    repeat split.
  - destruct p as [a|allowedValues|].
    2:{ destruct (forallb joinable allowedValues) eqn:Hallowed,
                 (converts v) eqn:Hconv.
        1:{ eexists. intros path error h out He.
            destruct (Hfields _ _ _ _ He) as (Hk & Hd & Hm & Hp & Hv).
            rewrite (prettyfy_enum d error h allowedValues Hk Hp Hallowed)
              by now rewrite Hv.
            rewrite Hd, Hm, Hv, substr_1_displayed. cbn [snd]. intros [= <-].
            repeat split. }
        all: exists ""; intros path error h out He;
          destruct (Hfields _ _ _ _ He) as (Hk & Hd & Hm & Hp & Hv);
          rewrite (prettyfy_enum_unprintable d error h allowedValues Hk Hp)
            by (rewrite Hv; auto);
          discriminate. }
    all: exists ""; intros path error h out He;
      destruct (Hfields _ _ _ _ He) as (Hk & Hd & Hm & Hp & Hv);
      rewrite prettyfy_enum_throws by (try exact Hk; intros l; rewrite Hp; discriminate);
      discriminate.
  - eexists. intros path error h out He.
    destruct (Hfields _ _ _ _ He) as (Hk & Hd & Hm & Hp & Hv).
    rewrite prettyfy_type by exact Hk.
    rewrite Hd, Hm, substr_1_displayed. cbn [snd]. intros [= <-].
    repeat split.
  - destruct (converts v) eqn:Hconv.
    + eexists. intros path error h out He.
      destruct (Hfields _ _ _ _ He) as (Hk & Hd & Hm & Hp & Hv).
      rewrite prettyfy_pattern by (try exact Hk; now rewrite Hv).
      rewrite Hd, Hm, Hv, substr_1_displayed. cbn [snd]. intros [= <-].
      repeat split.
    + exists "". intros path error h out He.
      destruct (Hfields _ _ _ _ He) as (Hk & Hd & Hm & Hp & Hv).
      rewrite prettyfy_pattern_unprintable by (try exact Hk; now rewrite Hv).
      discriminate.
Qed.

Lemma property_drops_first_character_witness :
  exists rest : string,
    "'oduleId' should be string." = "'" +:+ "oduleId" +:+ "' " +:+ rest.
Proof.
  destruct (property_drops_first_character babel "type" "should be string" OtherParams
              (JSNumber "1")) as [rest Hrest].
  - cbv [declared_keywords Babel.errorKeywords.additionalProperties
         Babel.errorKeywords.enum Babel.errorKeywords.type].
    apply list_elem_of_further, list_elem_of_further, list_elem_of_here.
  - exists rest.
    exact (proj1 (Hrest "moduleId" 0 bare_path "'oduleId' should be string."
                    eq_refl eq_refl)).
Defined.

(** ** Grouping *)

Lemma firstSeen_snoc (l : list string) (k : string) :
  firstSeen (l ++ [k]) = firstSeen l ++ (if decide (k ∈ l) then [] else [k]).
Proof.
  induction l as [|a l IH]; [reflexivity |].
  cbn [app firstSeen]. rewrite IH, filter_app. f_equal. f_equal.
  destruct (decide (k ∈ a :: l)) as [H1|H1], (decide (k ∈ l)) as [H2|H2];
    rewrite elem_of_cons in H1; try reflexivity; try tauto.
  - destruct H1 as [->|H1]; [| tauto].
    rewrite filter_cons, decide_False by tauto. reflexivity.
  - rewrite filter_cons, decide_True by tauto. reflexivity.
Qed.

Lemma elem_of_firstSeen (l : list string) (k : string) : k ∈ firstSeen l <-> k ∈ l.
Proof.
  induction l as [|a l IH]; [reflexivity |].
  cbn [firstSeen]. rewrite !elem_of_cons, list_elem_of_filter, IH.
  destruct (decide (k = a)); tauto.
Qed.

Lemma NoDup_firstSeen (l : list string) : NoDup (firstSeen l).
Proof.
  induction l as [|a l IH]; cbn [firstSeen]; constructor.
  - rewrite list_elem_of_filter. tauto.
  - now apply NoDup_filter.
Qed.

(** What one step of the aggregator does to own properties with distinct
    keys. *)
Lemma push_own_fresh (result : Dictionary (list ref)) (key : string) (value : ref) :
  key ∉ result.*1 -> push_own result key value = result ++ [(key, [value])].
Proof.
  induction result as [|[k vs] result IH]; [reflexivity |].
  cbn [fmap list_fmap fst push_own]. rewrite not_elem_of_cons. intros [Hne Hnin].
  apply not_eq_sym, String.eqb_neq in Hne. rewrite Hne.
  cbn [app]. f_equal. now apply IH.
Qed.

Lemma push_own_existing (result : Dictionary (list ref)) (key : string) (value : ref) :
  NoDup result.*1 -> key ∈ result.*1 ->
  push_own result key value
  = (fun p => (p.1, if decide (p.1 = key) then p.2 ++ [value] else p.2)) <$> result.
Proof.
  induction result as [|[k vs] result IH]; [intros _ Hin; inversion Hin |].
  cbn [fmap list_fmap fst snd push_own]. rewrite NoDup_cons, elem_of_cons.
  intros [Hk Hnd] Hin. destruct (String.eqb_spec k key) as [->|Hne].
  - rewrite decide_True by reflexivity. f_equal.
    clear IH Hin Hnd. induction result as [|[k' vs'] result IH]; [reflexivity |].
    cbn [fmap list_fmap fst snd] in *. rewrite not_elem_of_cons in Hk.
    destruct Hk as [Hne Hk]. rewrite decide_False by now apply not_eq_sym.
    f_equal. now apply IH.
  - rewrite decide_False by exact Hne. f_equal. apply IH; [exact Hnd |].
    destruct Hin as [Heq|Hin]; [now symmetry in Heq | exact Hin].
Qed.

(** [groupBy] reads the heap and folds the aggregator over the collection. *)
Lemma groupBy_run (h : heap) (errors : list ref) :
  groupBy errors (get dataPath) h
  = (h, Normal (foldl (fun result value => aggregate result (dataPath (h value)) value)
                  {| own := []; proto := None |} errors)).
Proof.
  unfold groupBy. generalize {| own := []; proto := None |} as result.
  induction errors as [|r errors IH]; intros result; [reflexivity |].
  cbn [reduce foldl]. rewrite <- IH. reflexivity.
Qed.

Lemma errors_at_snoc (h : heap) (path : string) (errors : list ref) (r : ref) :
  errors_at h path (errors ++ [r])
  = errors_at h path errors ++ (if decide (dataPath (h r) = path) then [r] else []).
Proof.
  unfold errors_at. rewrite filter_app. f_equal.
Qed.

Lemma errors_at_nil (h : heap) (path : string) (errors : list ref) :
  path ∉ (fun r => dataPath (h r)) <$> errors -> errors_at h path errors = [].
Proof.
  unfold errors_at. induction errors as [|r errors IH]; [reflexivity |].
  cbn [fmap list_fmap]. rewrite not_elem_of_cons. intros [Hne Hnin].
  rewrite filter_cons, decide_False by now apply not_eq_sym. now apply IH.
Qed.

Lemma fmap_fst_pair {A B} (f : A -> B) (l : list A) : ((fun a => (a, f a)) <$> l).*1 = l.
Proof.
  rewrite <- list_fmap_compose. etrans; [| apply list_fmap_id].
  apply list_fmap_ext. reflexivity.
Qed.

(** Pushing one more error onto the stable partition of a list gives the
    stable partition of the longer list. *)
Lemma stable_partition_snoc (h : heap) (errors : list ref) (r : ref) :
  push_own (stable_partition h errors) (dataPath (h r)) r
  = stable_partition h (errors ++ [r]).
Proof.
  unfold stable_partition.
  rewrite fmap_app. cbn [fmap list_fmap]. rewrite firstSeen_snoc.
  set (paths := (fun r => dataPath (h r)) <$> errors).
  assert (((fun path => (path, errors_at h path errors)) <$> firstSeen paths).*1
          = firstSeen paths) as Hkeys by apply fmap_fst_pair.
  destruct (decide (dataPath (h r) ∈ paths)) as [Hin|Hnin].
  - rewrite push_own_existing.
    + rewrite app_nil_r, <- list_fmap_compose. apply list_fmap_ext.
      intros _ path _. cbn. rewrite errors_at_snoc.
      destruct (decide (path = dataPath (h r))) as [->|Hne].
      * now rewrite decide_True.
      * rewrite decide_False by now apply not_eq_sym. now rewrite app_nil_r.
    + rewrite Hkeys. apply NoDup_firstSeen.
    + rewrite Hkeys. now apply elem_of_firstSeen.
  - rewrite push_own_fresh by (rewrite Hkeys, elem_of_firstSeen; exact Hnin).
    rewrite fmap_app. cbn [fmap list_fmap]. f_equal.
    + apply list_fmap_ext. intros i path Hpath. f_equal.
      rewrite errors_at_snoc. rewrite decide_False; [now rewrite app_nil_r |].
      intros Heq. apply Hnin. rewrite Heq.
      apply elem_of_firstSeen. eapply list_elem_of_lookup_2. exact Hpath.
    + f_equal. f_equal. rewrite errors_at_snoc, decide_True by reflexivity.
      now rewrite errors_at_nil.
Qed.

(** The object built by [groupBy]. *)
Lemma foldl_aggregate (h : heap) (errors : list ref) :
  foldl (fun result value => aggregate result (dataPath (h value)) value)
        {| own := []; proto := None |} errors
  = grouped_of h errors.
Proof.
  induction errors as [|r errors IH] using rev_ind; [reflexivity |].
  rewrite foldl_snoc, IH. unfold aggregate, grouped_of. cbn [own proto].
  rewrite filter_app, errors_at_snoc, filter_cons, filter_nil.
  destruct (String.eqb_spec (dataPath (h r)) "__proto__") as [Heq|Hne];
    destruct (decide (dataPath (h r) = "__proto__")); try contradiction;
    destruct (decide (dataPath (h r) <> "__proto__")); try contradiction.
  - now rewrite app_nil_r, last_snoc.
  - now rewrite app_nil_r, stable_partition_snoc.
Qed.

Lemma groupBy_grouped_of (h : heap) (errors : list ref) :
  groupBy errors (get dataPath) h = (h, Normal (grouped_of h errors)).
Proof. now rewrite groupBy_run, foldl_aggregate. Qed.

(** Without a dataPath [__proto__] the object is the stable partition, under
    the prototype of every object. *)
Lemma grouped_of_plain (h : heap) (errors : list ref) :
  Forall (fun r => dataPath (h r) <> "__proto__") errors ->
  grouped_of h errors = {| own := stable_partition h errors; proto := None |}.
Proof.
  intros Hplain. unfold grouped_of, errors_at. f_equal.
  - f_equal. induction Hplain as [|r errors Hr _ IH]; [reflexivity |].
    rewrite filter_cons, decide_True by exact Hr. now f_equal.
  - induction Hplain as [|r errors Hr _ IH]; [reflexivity |].
    rewrite filter_cons, decide_False by exact Hr. exact IH.
Qed.

Lemma concat_push_own (result : Dictionary (list ref)) (key : string) (value : ref) :
  concat (push_own result key value).*2 ≡ₚ value :: concat result.*2.
Proof.
  induction result as [|[k vs] result IH]; [reflexivity |].
  cbn [push_own]. destruct (String.eqb k key); cbn [fmap list_fmap snd concat].
  - rewrite <- app_assoc. cbn [app].
    rewrite <- Permutation_middle. reflexivity.
  - change (list_fmap _ _ snd ?l) with (l.*2). rewrite IH.
    rewrite <- Permutation_middle. reflexivity.
Qed.

(** Every error is in the partition as many times as it is in the input. *)
Lemma concat_stable_partition (h : heap) (errors : list ref) :
  concat (stable_partition h errors).*2 ≡ₚ errors.
Proof.
  induction errors as [|r errors IH] using rev_ind; [reflexivity |].
  rewrite <- stable_partition_snoc, concat_push_own, IH. apply Permutation_cons_append.
Qed.

Lemma stable_partition_keys (h : heap) (errors : list ref) :
  (stable_partition h errors).*1 = firstSeen ((fun r => dataPath (h r)) <$> errors).
Proof. apply fmap_fst_pair. Qed.

Lemma elem_of_stable_partition (h : heap) (errors : list ref) (path : string)
    (group : list ref) :
  (path, group) ∈ stable_partition h errors ->
  path ∈ (fun r => dataPath (h r)) <$> errors /\ group = errors_at h path errors.
Proof.
  unfold stable_partition. rewrite list_elem_of_fmap.
  intros (path' & [= <- ->] & Hin). split; [| reflexivity].
  now apply elem_of_firstSeen.
Qed.

(** A group is never empty. *)
Lemma errors_at_nonempty (h : heap) (errors : list ref) (path : string) :
  path ∈ (fun r => dataPath (h r)) <$> errors -> errors_at h path errors <> [].
Proof.
  rewrite list_elem_of_fmap. intros (r & -> & Hr) Hnil.
  assert (r ∈ errors_at h (dataPath (h r)) errors) as Hin
    by (unfold errors_at; rewrite list_elem_of_filter; auto).
  rewrite Hnil in Hin. inversion Hin.
Qed.

(** ** Enumeration order of the groups *)

Lemma ownEntries_Permutation {V} (object : Dictionary V) : ownEntries object ≡ₚ object.
Proof.
  unfold ownEntries. rewrite merge_sort_Permutation.
  rewrite (list_filter_iff (fun p => array_index p.1 = None)
             (fun p => ~ is_Some (array_index p.1))).
  - apply filter_app_complement.
  - intros p. rewrite <- eq_None_not_Some. reflexivity.
Qed.

Lemma ownEntries_no_index {V} (object : Dictionary V) :
  Forall (fun p => array_index p.1 = None) object -> ownEntries object = object.
Proof.
  intros Hall. unfold ownEntries.
  assert (filter (fun p : string * V => is_Some (array_index p.1)) object = []) as ->.
  { induction Hall as [|p l Hp Hl IH]; [reflexivity |].
    rewrite filter_cons, decide_False; [exact IH |].
    rewrite Hp. apply is_Some_None. }
  cbn. induction Hall as [|p l Hp Hl IH]; [reflexivity |].
  rewrite filter_cons, decide_True by exact Hp. now f_equal.
Qed.

Lemma elem_of_ownEntries {V} (object : Dictionary V) (p : string * V) :
  p ∈ ownEntries object <-> p ∈ object.
Proof. now rewrite ownEntries_Permutation. Qed.

(** ** What [map] visits *)

Lemma lookup_own_elem {V} (key : string) (object : Dictionary V) (v : V) :
  lookup_own key object = Some v -> (key, v) ∈ object.
Proof.
  induction object as [|[k v'] object IH]; [discriminate |].
  cbn [lookup_own]. destruct (String.eqb_spec k key) as [->|Hne].
  - intros [= ->]. left.
  - intros Hv. right. now apply IH.
Qed.

(** Under the prototype of every object, [map] visits the own properties. *)
Lemma visited_plain (h : heap) (errors : list ref) :
  Forall (fun r => dataPath (h r) <> "__proto__") errors ->
  visited (grouped_of h errors)
  = (fun p => (p.1, Values p.2)) <$> ownEntries (stable_partition h errors).
Proof. intros Hplain. now rewrite grouped_of_plain. Qed.

(** Every array that [map] visits is a group: the errors of the event at
    one dataPath, in the order of the event. *)
Lemma visited_group (h : heap) (errors : list ref) (path : string) (group : list ref) :
  (path, Values group) ∈ visited (grouped_of h errors) ->
  path ∈ (fun r => dataPath (h r)) <$> errors
  /\ path <> "__proto__"
  /\ group = errors_at h path errors.
Proof.
  assert ((path, group) ∈ own (grouped_of h errors) ->
          path ∈ (fun r => dataPath (h r)) <$> errors
          /\ path <> "__proto__"
          /\ group = errors_at h path errors) as Hown.
  { cbn [grouped_of own]. intros Hin.
    apply elem_of_stable_partition in Hin as [Hpath ->].
    apply list_elem_of_fmap in Hpath as (r & -> & Hr).
    apply list_elem_of_filter in Hr as [Hne Hr].
    split; [now apply (list_elem_of_fmap_2 (fun r => dataPath (h r))) |].
    split; [exact Hne |].
    unfold errors_at. rewrite list_filter_filter. apply list_filter_iff.
    intros r'. split; [tauto |]. intros Heq. split; [exact Heq | now rewrite Heq]. }
  assert ((path, Values group)
          ∈ (fun p : string * list ref => (p.1, Values p.2))
              <$> ownEntries (own (grouped_of h errors)) ->
          (path, group) ∈ own (grouped_of h errors)) as Hentries.
  { rewrite list_elem_of_fmap. intros ([path' group'] & [= <- <-] & Hin).
    now apply elem_of_ownEntries. }
  unfold visited. destruct (proto (grouped_of h errors)) as [e|]; [| now auto].
  destruct (isArrayLike (grouped_of h errors)); [| now auto].
  rewrite list_elem_of_singleton.
  destruct (lookup_own "0" (own (grouped_of h errors))) as [values|] eqn:Hzero;
    [| discriminate].
  intros [= -> ->]. apply Hown. now apply lookup_own_elem.
Qed.

(** The order in which [map] visits the groups when no dataPath is an array
    index or [__proto__]: the order in which the dataPaths are first seen. *)
Lemma visited_first_seen (h : heap) (errors : list ref) :
  Forall (fun r => array_index (dataPath (h r)) = None
                   /\ dataPath (h r) <> "__proto__") errors ->
  visited (grouped_of h errors)
  = (fun p => (p.1, Values p.2)) <$> stable_partition h errors.
Proof.
  intros Hpaths. rewrite visited_plain.
  - rewrite ownEntries_no_index; [reflexivity |].
    apply Forall_forall. intros [path group] Hin.
    apply elem_of_stable_partition in Hin as [Hin _].
    apply list_elem_of_fmap in Hin as (r & -> & Hr).
    rewrite Forall_forall in Hpaths. now apply Hpaths.
  - eapply Forall_impl; [exact Hpaths | now intros r [_ ?]].
Qed.

Lemma array_index_non_digit (c : ascii) (s : string) :
  digit c = None -> array_index (String c s) = None.
Proof.
  intros Hc. unfold array_index.
  destruct (Ascii.eqb c "0" && negb (String.eqb s "")); [reflexivity |].
  cbn [parse_digits]. now rewrite Hc.
Qed.

(** A path of the validator is neither an array index nor [__proto__]. *)
Lemma validator_path_ordinary (path : string) :
  validator_path path -> array_index path = None /\ path <> "__proto__".
Proof.
  destruct path as [|c s]; [now split |].
  intros [-> | [-> | ->]]; (split; [now apply array_index_non_digit | discriminate]).
Qed.

(** C2: on the dataPaths of the validator, grouping is a stable partition.
    The groups that [map] hands to [report] have for keys the dataPaths of
    the input in the order in which they are first seen, each once; each
    group holds the input errors of its dataPath, in their order in the
    input; and every error is in exactly one group, as many times as it is
    in the input. *)
Theorem grouping_is_a_stable_partition (h : heap) (errors : list ref) :
  Forall (fun r => validator_path (dataPath (h r))) errors ->
  exists (grouped : Grouped) (groups : Dictionary (list ref)),
    groupBy errors (get dataPath) h = (h, Normal grouped)
    /\ visited grouped = (fun p => (p.1, Values p.2)) <$> groups
    /\ groups.*1 = firstSeen ((fun r => dataPath (h r)) <$> errors)
    /\ NoDup groups.*1
    /\ (forall path group,
          (path, group) ∈ groups ->
          group = filter (fun r => dataPath (h r) = path) errors
          /\ sublist group errors)
    /\ (forall r, r ∈ errors ->
          exists i group,
            groups !! i = Some (dataPath (h r), group) /\ r ∈ group
            /\ forall i' path' group',
                 groups !! i' = Some (path', group') -> r ∈ group' -> i' = i)
    /\ concat groups.*2 ≡ₚ errors.
Proof.
  intros Hpaths.
  exists (grouped_of h errors), (stable_partition h errors).
  split; [apply groupBy_grouped_of |].
  split.
  { apply visited_first_seen.
    eapply Forall_impl; [exact Hpaths |]. intros r. apply validator_path_ordinary. }
  split; [apply stable_partition_keys |].
  split; [rewrite stable_partition_keys; apply NoDup_firstSeen |].
  split; [| split].
  - intros path group Hin. apply elem_of_stable_partition in Hin as [_ ->].
    split; [reflexivity |]. apply sublist_filter.
  - intros r Hr.
    assert ((dataPath (h r), errors_at h (dataPath (h r)) errors)
            ∈ stable_partition h errors) as Hentry.
    { unfold stable_partition.
      apply (list_elem_of_fmap_2 (fun path => (path, errors_at h path errors))).
      apply elem_of_firstSeen.
      now apply (list_elem_of_fmap_2 (fun r => dataPath (h r))). }
    apply list_elem_of_lookup_1 in Hentry as [i Hi].
    exists i, (errors_at h (dataPath (h r)) errors).
    split; [exact Hi |]. split.
    + unfold errors_at. rewrite list_elem_of_filter. auto.
    + intros i' path' group' Hi' Hmember.
      pose proof (list_elem_of_lookup_2 _ _ _ Hi') as Hin'.
      apply elem_of_stable_partition in Hin' as [_ ->].
      unfold errors_at in Hmember. apply list_elem_of_filter in Hmember as [<- _].
      apply (NoDup_lookup (stable_partition h errors).*1 i' i (dataPath (h r))).
      * rewrite stable_partition_keys. apply NoDup_firstSeen.
      * now rewrite list_lookup_fmap, Hi'.
      * now rewrite list_lookup_fmap, Hi.
  - apply concat_stable_partition.
Qed.

(** The grouping scenario of the specification: dataPaths [a, b, a]. *)
Lemma grouping_is_a_stable_partition_witness :
  exists grouped : Grouped,
    groupBy [0; 3; 1] (get dataPath) fixtures = (fixtures, Normal grouped)
    /\ visited grouped
       = [(".compilerOptions.target", Values [0; 1]); (".compilerOptions", Values [3])].
Proof.
  destruct (grouping_is_a_stable_partition fixtures [0; 3; 1])
    as (grouped & groups & Hrun & Hvisited & _).
  - repeat constructor; cbn; auto.
  - exists grouped. split; [exact Hrun |].
    injection Hrun as <-. reflexivity.
Defined.

(** ** Runs of the handlers *)

Lemma emitted_snoc (i j : nat) (d : Diagnostic) (w w' : world) :
  w_sink w' = w_sink w ++ [(j, d)] ->
  emitted i w' = emitted i w ++ (if decide (j = i) then [d] else []).
Proof.
  unfold emitted. intros ->. rewrite filter_app, fmap_app. f_equal.
  rewrite filter_cons, filter_nil. cbn. now destruct (decide (j = i)).
Qed.

Lemma emitted_same (i : nat) (w w' : world) :
  w_sink w' = w_sink w -> emitted i w' = emitted i w.
Proof. unfold emitted. now intros ->. Qed.

(** What [resume] does when the calls left are read-only. *)
Lemma resume_spec (h : heap) (i : nat) (rest : async) (w : world) :
  w_heap w = h -> Forall readonly rest ->
  (resume i rest w).1.(w_heap) = h
  /\ (resume i rest w).1.(w_tasks) = w_tasks w
  /\ (resume i rest w).1.(w_handler) = w_handler w
  /\ match rest with
     | [] => (resume i rest w).1.(w_sink) = w_sink w /\ (resume i rest w).2 = Returned
     | call :: rest' =>
         match outcome h call with
         | Normal d => (resume i rest w).1.(w_sink) = w_sink w ++ [(i, d)]
                       /\ (resume i rest w).2 = Suspended rest'
         | Throw _ => (resume i rest w).1.(w_sink) = w_sink w
                      /\ (resume i rest w).2 = Thrown
         end
     end.
Proof.
  intros Hh Hro. destruct rest as [|call rest']; [now cbn |].
  apply Forall_cons in Hro as [Hcall _]. unfold outcome, resume.
  rewrite Hh, (readonly_run call h Hcall).
  destruct (call h).2; now cbn.
Qed.

(** A task that is at the right place stays there when it is resumed, and
    the calls of the other tasks are not touched. *)
Lemma resume_ok (h : heap) (body done rest : async) (i : nat) (w : world) :
  w_heap w = h -> Forall readonly rest ->
  body = done ++ rest ->
  Normal <$> emitted i w = outcome h <$> done ->
  task_ok h body (emitted i (resume i rest w).1) (resume i rest w).2
  /\ (forall j, j <> i -> emitted j (resume i rest w).1 = emitted j w)
  /\ (forall p, p ∈ w_sink (resume i rest w).1 -> p ∈ w_sink w \/ p.1 = i).
Proof.
  intros Hh Hro -> Hmade.
  destruct (resume_spec h i rest w Hh Hro) as (_ & _ & _ & Hcase).
  destruct rest as [|call rest'].
  - destruct Hcase as [Hsink ->]. rewrite (emitted_same _ _ _ Hsink).
    split; [| split].
    + cbn. now rewrite app_nil_r.
    + intros j _. now apply emitted_same.
    + intros p. rewrite Hsink. auto.
  - destruct (outcome h call) as [d|e] eqn:Hout.
    + destruct Hcase as [Hsink ->]. split; [| split].
      * exists (done ++ [call]). split; [now rewrite <- app_assoc |].
        rewrite (emitted_snoc _ _ _ _ _ Hsink), decide_True by reflexivity.
        rewrite !fmap_app, Hmade. cbn. now rewrite Hout.
      * intros j Hj. rewrite (emitted_snoc _ _ _ _ _ Hsink).
        rewrite decide_False by now apply not_eq_sym. apply app_nil_r.
      * intros p. rewrite Hsink, elem_of_app, list_elem_of_singleton.
        intros [Hp| ->]; auto.
    + destruct Hcase as [Hsink ->]. split; [exact I | split].
      * intros j _. now apply emitted_same.
      * intros p. rewrite Hsink. auto.
Qed.

Lemma emitted_fresh (i : nat) (w : world) (n : nat) :
  (forall p, p ∈ w_sink w -> p.1 < n) -> n <= i -> emitted i w = [].
Proof.
  unfold emitted. intros Htags Hle.
  induction (w_sink w) as [|p sink IH]; [reflexivity |].
  rewrite filter_cons, decide_False.
  - apply IH. intros q Hq. apply Htags. now right.
  - specialize (Htags p (list_elem_of_here _ _)). lia.
Qed.

Lemma spawn_spec (w : world) (body : async) :
  let i := length (w_tasks w) in
  w_heap (spawn w body) = w_heap (resume i body w).1
  /\ w_sink (spawn w body) = w_sink (resume i body w).1
  /\ w_tasks (spawn w body) = w_tasks (resume i body w).1 ++ [(resume i body w).2]
  /\ w_handler (spawn w body) = w_handler (resume i body w).1.
Proof. unfold spawn. now destruct (resume (length (w_tasks w)) body w). Qed.

(** Starting one more task keeps the world consistent. *)
Lemma spawn_consistent (h : heap) (bodies : list async) (body : async) (w : world) :
  consistent h bodies w -> w_handler w = Pending -> Forall readonly body ->
  consistent h (bodies ++ [body]) (spawn w body) /\ w_handler (spawn w body) = Pending.
Proof.
  intros (Hh & Hlen & Htasks & Htags & _) Hpending Hro.
  destruct (spawn_spec w body) as (Hheap & Hsink & Hnew & Hhandler).
  destruct (resume_spec h (length (w_tasks w)) body w Hh Hro) as (Hh' & Ht' & Hp' & _).
  assert (emitted (length (w_tasks w)) w = []) as Hnone
    by (apply (emitted_fresh _ _ (length bodies)); [exact Htags | lia]).
  destruct (resume_ok h body [] body (length (w_tasks w)) w Hh Hro eq_refl)
    as (Hok & Hothers & Hsrc); [now rewrite Hnone |].
  rewrite Ht' in Hnew. rewrite Hp' in Hhandler.
  split; [| congruence]. repeat split.
  - congruence.
  - rewrite Hnew, !length_app. cbn. lia.
  - intros j body' t' Hb Ht. rewrite Hnew in Ht.
    apply lookup_snoc_Some in Hb as [[Hj Hb]|[-> <-]],
          Ht as [[Hj' Ht]|[Hj' <-]]; try lia.
    + rewrite (emitted_same j _ _ Hsink), Hothers by lia. now apply Htasks.
    + rewrite (emitted_same _ _ _ Hsink), <- Hlen. exact Hok.
  - intros p. rewrite Hsink, length_app. cbn. intros Hp.
    destruct (Hsrc p Hp) as [Hold| ->]; [| lia].
    specialize (Htags p Hold). lia.
  - rewrite Hhandler, Hpending. discriminate.
Qed.

Lemma start_consistent (h : heap) : consistent h [] (start h).
Proof.
  repeat split; cbn; try easy.
Qed.

Lemma spawn_all_consistent (h : heap) (bodies more : list async) (w : world) :
  consistent h bodies w -> w_handler w = Pending ->
  Forall (Forall readonly) more ->
  consistent h (bodies ++ more) (foldl spawn w more)
  /\ w_handler (foldl spawn w more) = Pending.
Proof.
  intros Hw Hp Hro. revert bodies w Hw Hp.
  induction Hro as [|body more Hbody _ IH]; intros bodies w Hw Hp.
  - now rewrite app_nil_r.
  - destruct (spawn_consistent h bodies body w Hw Hp Hbody) as [Hw' Hp'].
    cbn [foldl]. specialize (IH (bodies ++ [body]) (spawn w body) Hw' Hp').
    now rewrite <- app_assoc in IH.
Qed.

Lemma set_task_emitted (i j : nat) (t : task) (w : world) :
  emitted j (set_task i t w) = emitted j w.
Proof. reflexivity. Qed.

(** Every step keeps the world consistent. *)
Lemma step_consistent (h : heap) (bodies : list async) (ev : event) (w w' : world) :
  Forall (Forall readonly) bodies ->
  consistent h bodies w -> step ev w = Some w' -> consistent h bodies w'.
Proof.
  intros Hro (Hh & Hlen & Htasks & Htags & Hdone) Hstep.
  destruct ev as [i|i|]; cbn [step] in Hstep.
  - destruct (w_tasks w !! i) as [[rest| |]|] eqn:Hi; try discriminate.
    assert (is_Some (bodies !! i)) as [body Hbody].
    { apply lookup_lt_is_Some. rewrite <- Hlen. apply lookup_lt_is_Some. eauto. }
    destruct (Htasks i body _ Hbody Hi) as (done & Hsplit & Hmade).
    assert (Forall readonly rest) as Hrest.
    { rewrite Forall_lookup in Hro. specialize (Hro i body Hbody).
      rewrite Hsplit in Hro. now apply Forall_app in Hro as [_ ?]. }
    destruct (resume_spec h i rest w Hh Hrest) as (Hh' & Ht' & Hp' & _).
    destruct (resume_ok h body done rest i w Hh Hrest Hsplit Hmade)
      as (Hok & Hothers & Hsrc).
    destruct (resume i rest w) as [w1 t1] eqn:E. cbn [fst snd] in *.
    injection Hstep as <-. repeat split; cbn [set_task w_heap w_tasks w_sink w_handler].
    + exact Hh'.
    + rewrite length_insert. congruence.
    + intros j body' t' Hb Ht. rewrite set_task_emitted.
      destruct (decide (i = j)) as [<-|Hne].
      * rewrite Ht', list_lookup_insert_eq in Ht
          by (apply lookup_lt_is_Some; eauto).
        injection Ht as <-. rewrite Hbody in Hb. injection Hb as <-. exact Hok.
      * rewrite list_lookup_insert_ne, Ht' in Ht by exact Hne.
        rewrite Hothers by now apply not_eq_sym. now apply (Htasks j).
    + intros p Hp. destruct (Hsrc p Hp) as [Hold| ->]; [now apply Htags |].
      rewrite <- Hlen. apply lookup_lt_is_Some. eauto.
    + rewrite Hp'. intros Hf. specialize (Hdone Hf).
      rewrite Forall_lookup in Hdone. now specialize (Hdone i _ Hi).
  - destruct (w_tasks w !! i) as [[rest| |]|] eqn:Hi; try discriminate.
    injection Hstep as <-. repeat split; cbn [set_task w_heap w_tasks w_sink w_handler].
    + exact Hh.
    + rewrite length_insert. congruence.
    + intros j body' t' Hb Ht. rewrite set_task_emitted.
      destruct (decide (i = j)) as [<-|Hne].
      * rewrite list_lookup_insert_eq in Ht by (apply lookup_lt_is_Some; eauto).
        injection Ht as <-. exact I.
      * rewrite list_lookup_insert_ne in Ht by exact Hne. now apply (Htasks j).
    + exact Htags.
    + intros Hf. specialize (Hdone Hf).
      rewrite Forall_lookup in Hdone. now specialize (Hdone i _ Hi).
  - destruct (w_handler w) eqn:Hp; try discriminate.
    destruct (existsb is_thrown (w_tasks w)); [| destruct (forallb is_returned (w_tasks w)) eqn:Hall];
      try discriminate; injection Hstep as <-;
      repeat split; cbn [w_heap w_tasks w_sink w_handler]; try assumption;
      try discriminate.
    intros _. apply Forall_forall. intros t Ht.
    rewrite forallb_forall in Hall. apply list_elem_of_In in Ht.
    specialize (Hall t Ht). now destruct t.
Qed.

Lemma run_consistent (h : heap) (bodies : list async) (schedule : list event)
    (w w' : world) :
  Forall (Forall readonly) bodies ->
  consistent h bodies w -> run schedule w = Some w' -> consistent h bodies w'.
Proof.
  intros Hro. revert w. induction schedule as [|ev schedule IH]; intros w Hw Hrun.
  - now injection Hrun as <-.
  - cbn [run] in Hrun. destruct (step ev w) as [w1|] eqn:Hstep; [| discriminate].
    apply (IH w1); [| exact Hrun]. now apply (step_consistent h bodies ev w).
Qed.

(** *** Counting the calls *)

Lemma sum_list_indicator (f : nat -> nat) (a start n : nat) :
  sum_list ((fun i => (if decide (a = i) then 1 else 0) + f i) <$> seq start n)
  = (if decide (start <= a < start + n) then 1 else 0) + sum_list (f <$> seq start n).
Proof.
  revert start. induction n as [|n IH]; intros start.
  - cbn. case_decide; lia.
  - cbn [seq fmap list_fmap sum_list sum_list_with].
    change (list_fmap _ _ ?g ?l) with (g <$> l).
    change (sum_list_with id ?l) with (sum_list l).
    rewrite IH. unfold id. repeat case_decide; lia.
Qed.

Lemma length_by_tag (sink : list (nat * Diagnostic)) (n : nat) :
  (forall p, p ∈ sink -> p.1 < n) ->
  length sink
  = sum_list ((fun i => length (filter (fun p => p.1 = i) sink)) <$> seq 0 n).
Proof.
  induction sink as [|p sink IH]; intros Htags.
  - cbn. now rewrite sum_list_fmap_const, Nat.mul_0_r.
  - rewrite (list_fmap_ext _
               (fun i => (if decide (p.1 = i) then 1 else 0)
                         + length (filter (fun q : nat * Diagnostic => q.1 = i) sink))).
    + rewrite sum_list_indicator, decide_True.
      * cbn. f_equal. apply IH. intros q Hq. apply Htags. now right.
      * specialize (Htags p (list_elem_of_here _ _)). lia.
    + intros _ i _. rewrite filter_cons. now case_decide.
Qed.

Lemma length_concat_sum {A} (ls : list (list A)) :
  length (concat ls) = sum_list (length <$> ls).
Proof.
  induction ls as [|l ls IH]; [reflexivity |].
  cbn. now rewrite length_app, IH.
Qed.

Lemma fmap_eq_Forall2 {A B C} (f : A -> C) (g : B -> C) (l1 : list A) (l2 : list B) :
  f <$> l1 = g <$> l2 -> Forall2 (fun a b => g b = f a) l1 l2.
Proof.
  revert l2. induction l1 as [|a l1 IH]; intros [|b l2]; cbn; try discriminate.
  - constructor.
  - intros [= Hab Hl]. constructor; [now symmetry | now apply IH].
Qed.

(** When the handler is fulfilled every task has returned, each task has
    made exactly the calls of its body, in order, and the sink has received
    nothing else. *)
Lemma fulfilled_world (h : heap) (bodies : list async) (w : world) :
  consistent h bodies w -> w_handler w = Fulfilled ->
  Forall (fun t => t = Returned) (w_tasks w)
  /\ length (w_tasks w) = length bodies
  /\ (forall i body, bodies !! i = Some body ->
        Normal <$> emitted i w = outcome h <$> body)
  /\ (forall p, p ∈ w_sink w -> p.1 < length bodies)
  /\ length (w_sink w) = length (concat bodies).
Proof.
  intros (Hh & Hlen & Htasks & Htags & Hdone) Hf. specialize (Hdone Hf).
  assert (forall i body, bodies !! i = Some body ->
            Normal <$> emitted i w = outcome h <$> body) as Hall.
  { intros i body Hbody.
    assert (is_Some (w_tasks w !! i)) as [t Ht].
    { apply lookup_lt_is_Some. rewrite Hlen. apply lookup_lt_is_Some. eauto. }
    specialize (Htasks i body t Hbody Ht).
    rewrite Forall_lookup in Hdone. now rewrite (Hdone i t Ht) in Htasks. }
  repeat split; try assumption.
  rewrite (length_by_tag _ (length bodies) Htags), length_concat_sum. f_equal.
  apply list_eq. intros i. rewrite !list_lookup_fmap.
  destruct (bodies !! i) as [body|] eqn:Hbody.
  - rewrite (proj2 (lookup_seq 0 (length bodies) i i)).
    + specialize (Hall i body Hbody).
      apply (f_equal length) in Hall. rewrite !length_fmap in Hall.
      unfold emitted in Hall. rewrite length_fmap in Hall.
      cbn. now f_equal.
    + split; [reflexivity |]. apply lookup_lt_is_Some. eauto.
  - apply lookup_ge_None in Hbody.
    destruct (seq 0 (length bodies) !! i) as [j|] eqn:Hseq; [| reflexivity].
    apply lookup_seq in Hseq. lia.
Qed.

(** *** The handler is fulfilled when nothing throws *)

Lemma sum_list_insert (l : list nat) (i x y : nat) :
  l !! i = Some x -> sum_list (<[i := y]> l) + x = sum_list l + y.
Proof.
  assert (forall a l', sum_list (a :: l') = a + sum_list l') as Hcons by reflexivity.
  revert i. induction l as [|a l IH]; intros [|i]; try discriminate.
  - intros [= ->]. cbn [list_insert insert]. rewrite !Hcons. lia.
  - intros Hi. specialize (IH i Hi).
    change (<[S i := y]> (a :: l)) with (a :: <[i := y]> l).
    rewrite !Hcons. lia.
Qed.

Lemma not_all_returned (tasks : list task) :
  forallb is_returned tasks = false ->
  exists i t, tasks !! i = Some t /\ is_returned t = false.
Proof.
  induction tasks as [|t tasks IH]; [discriminate |].
  cbn [forallb]. destruct (is_returned t) eqn:Ht.
  - intros Hall. destruct (IH Hall) as (i & t' & Hi & Ht'). now exists (S i), t'.
  - intros _. now exists 0, t.
Qed.

Lemma healthy_fulfils (h : heap) (n : nat) (w : world) :
  sum_list (waiting <$> w_tasks w) <= n -> healthy h w ->
  exists schedule w', run schedule w = Some w' /\ w_handler w' = Fulfilled.
Proof.
  revert w. induction n as [|n IH]; intros w Hn (Hh & Hp & Hall);
    destruct (forallb is_returned (w_tasks w)) eqn:Hret.
  1,3: exists [Settle]; eexists; cbn [run step]; rewrite Hp, Hret;
    replace (existsb is_thrown (w_tasks w)) with false;
    [split; reflexivity |];
    symmetry; apply not_true_is_false; intros Hex;
    apply existsb_exists in Hex as (t & Ht & Hthrown);
    rewrite forallb_forall in Hret; specialize (Hret t Ht); now destruct t.
  all: destruct (not_all_returned _ Hret) as (i & t & Hi & Ht);
    rewrite Forall_lookup in Hall; pose proof (Hall i t Hi) as Hgood;
    destruct t as [rest| |]; try discriminate; try contradiction.
  - exfalso. pose proof (sum_list_insert (waiting <$> w_tasks w) i
                           (waiting (Suspended rest)) 0) as Hsum.
    rewrite list_lookup_fmap, Hi in Hsum. specialize (Hsum eq_refl). cbn in Hsum. lia.
  - assert (Forall readonly rest) as Hro
      by (eapply Forall_impl; [exact Hgood | now intros call [? _]]).
    destruct (resume_spec h i rest w Hh Hro) as (Hh' & Ht' & Hp' & Hcase).
    destruct (resume i rest w) as [w1 t1] eqn:E. cbn [fst snd] in *.
    assert (waiting t1 < waiting (Suspended rest)
            /\ match t1 with
               | Suspended rest' =>
                   Forall (fun call => readonly call
                                       /\ exists d, outcome h call = Normal d) rest'
               | Returned => True
               | Thrown => False
               end) as [Hless Ht1].
    { destruct rest as [|call rest'].
      - destruct Hcase as [_ ->]. cbn. split; [lia | exact I].
      - apply Forall_cons in Hgood as [[_ [d Hd]] Hrest'].
        rewrite Hd in Hcase. destruct Hcase as [_ ->]. cbn. split; [lia | exact Hrest']. }
    destruct (IH (set_task i t1 w1)) as (schedule & w' & Hrun & Hf).
    + cbn [set_task w_tasks]. rewrite Ht', list_fmap_insert.
      pose proof (sum_list_insert (waiting <$> w_tasks w) i
                    (waiting (Suspended rest)) (waiting t1)) as Hsum.
      rewrite list_lookup_fmap, Hi in Hsum. specialize (Hsum eq_refl). lia.
    + repeat split; cbn [set_task w_heap w_handler w_tasks]; [exact Hh' | congruence |].
      rewrite Ht'. apply Forall_insert; [now apply Forall_lookup | exact Ht1].
    + exists (Ack i :: schedule), w'. split; [| exact Hf].
      cbn [run step]. rewrite Hi, E. exact Hrun.
Qed.

Lemma spawn_healthy (h : heap) (w : world) (body : async) :
  healthy h w ->
  Forall (fun call => readonly call /\ exists d, outcome h call = Normal d) body ->
  healthy h (spawn w body).
Proof.
  intros (Hh & Hp & Hall) Hbody.
  assert (Forall readonly body) as Hro
    by (eapply Forall_impl; [exact Hbody | now intros call [? _]]).
  destruct (spawn_spec w body) as (Hheap & _ & Hnew & Hhandler).
  destruct (resume_spec h (length (w_tasks w)) body w Hh Hro) as (Hh' & Ht' & Hp' & Hcase).
  repeat split; [congruence | congruence |].
  rewrite Hnew, Ht'. apply Forall_app. split; [exact Hall |].
  constructor; [| constructor].
  destruct body as [|call rest'].
  - destruct Hcase as [_ ->]. exact I.
  - apply Forall_cons in Hbody as [[_ [d Hd]] Hrest'].
    rewrite Hd in Hcase. destruct Hcase as [_ ->]. exact Hrest'.
Qed.

Lemma spawn_all_healthy (h : heap) (w : world) (bodies : list async) :
  healthy h w ->
  Forall (Forall (fun call => readonly call /\ exists d, outcome h call = Normal d))
         bodies ->
  healthy h (foldl spawn w bodies).
Proof.
  intros Hw Hbodies. revert w Hw.
  induction Hbodies as [|body bodies Hbody _ IH]; intros w Hw; [exact Hw |].
  cbn [foldl]. apply IH. now apply spawn_healthy.
Qed.

(** ** The handlers of the two rules *)

Lemma mapM_normal {A B} (f : A -> M B) (l : list A) (h : heap) :
  (forall x, readonly (f x)) ->
  Forall (fun x => exists y, (f x h).2 = Normal y) l ->
  exists ys, mapM f l h = (h, Normal ys).
Proof.
  intros Hro. induction 1 as [|x l [y Hy] _ [ys IH]]; [now exists [] |].
  exists (y :: ys). cbn [mapM]. unfold bind at 1.
  rewrite (readonly_run (f x) h (Hro x)), Hy. unfold bind. now rewrite IH.
Qed.

Lemma mapM_inv {A B} (f : A -> M B) (l : list A) (h : heap) (ys : list B) :
  (forall x, readonly (f x)) ->
  (mapM f l h).2 = Normal ys ->
  Forall2 (fun y x => (f x h).2 = Normal y) ys l.
Proof.
  intros Hro. revert ys. induction l as [|x l IH]; intros ys; cbn [mapM].
  - intros [= <-]. constructor.
  - unfold bind at 1. rewrite (readonly_run (f x) h (Hro x)).
    destruct (f x h).2 as [y|e] eqn:Hy; [| discriminate].
    unfold bind. rewrite (readonly_run (mapM f l) h (readonly_mapM f l Hro)).
    destruct (mapM f l h).2 as [ys'|e] eqn:Hys; [| discriminate].
    intros [= <-]. constructor; [exact Hy | now apply IH].
Qed.

Lemma readonly_report_body (d : dialect) (group : list ref) (resource : string)
    (error : ref) :
  readonly (report_body_of d group resource error).
Proof.
  destruct d; cbv [report_body_of Babel.report_body TypeScript.report_body].
  - apply readonly_bind; [apply (readonly_prettyfy babel) | intros; apply readonly_ret].
  - apply readonly_bind; [apply readonly_get | intros kw].
    apply readonly_if.
    + apply readonly_bind; [| intros; apply readonly_ret].
      apply readonly_mapM. intros r. apply (readonly_prettyfy typescript).
    + apply readonly_bind; [apply (readonly_prettyfy typescript) |].
      intros; apply readonly_ret.
Qed.

(** Every call of [report] is addressed to the resource of the event, with
    no location. *)
Lemma report_body_addressed (d : dialect) (h : heap) (group : list ref)
    (resource : string) (error : ref) (diagnostic : Diagnostic) :
  outcome h (report_body_of d group resource error) = Normal diagnostic ->
  d_resource diagnostic = resource /\ d_location diagnostic = None.
Proof.
  unfold outcome.
  destruct d; cbv [report_body_of Babel.report_body TypeScript.report_body bind get].
  - destruct (Babel.prettyfy error h) as [h' [text|e]]; cbn; [| discriminate].
    now intros [= <-].
  - destruct (String.eqb (keyword (h error)) "anyOf").
    + destruct (mapM TypeScript.prettyfy (without group error) h) as [h' [results|e]];
        cbn; [| discriminate].
      now intros [= <-].
    + destruct (TypeScript.prettyfy error h) as [h' [text|e]]; cbn; [| discriminate].
      now intros [= <-].
Qed.

(** The calls of [report] return when the formatter chain does not throw on
    the errors of the group. *)
Lemma report_body_normal (d : dialect) (h : heap) (group : list ref)
    (resource : string) (error : ref) :
  Forall (fun r => exists text, (prettyfy_of d r h).2 = Normal text) group ->
  error ∈ group ->
  exists diagnostic, outcome h (report_body_of d group resource error) = Normal diagnostic.
Proof.
  intros Hall Hin. pose proof Hall as Hall'.
  rewrite Forall_forall in Hall'. destruct (Hall' error Hin) as [text Htext].
  unfold outcome.
  destruct d; cbv [report_body_of Babel.report_body TypeScript.report_body bind get].
  - rewrite (readonly_run (Babel.prettyfy error) h (readonly_prettyfy babel error)).
    cbn [prettyfy_of] in Htext. rewrite Htext. now eexists.
  - destruct (String.eqb (keyword (h error)) "anyOf").
    + destruct (mapM_normal TypeScript.prettyfy (without group error) h
                  (readonly_prettyfy typescript)) as [results Hresults].
      * apply Forall_forall. intros r Hr. apply Hall'.
        unfold without in Hr. now apply list_elem_of_filter in Hr as [_ ?].
      * rewrite Hresults. now eexists.
    + rewrite (readonly_run (TypeScript.prettyfy error) h
                 (readonly_prettyfy typescript error)).
      cbn [prettyfy_of] in Htext. rewrite Htext. now eexists.
Qed.

Lemma report_of_values (d : dialect) (group : list ref) (resource : string) :
  report_of d (Values group) resource = report_body_of d group resource <$> group.
Proof. now destruct d. Qed.

Lemma readonly_report (d : dialect) (values : collection) (resource : string) :
  Forall readonly (report_of d values resource).
Proof.
  destruct values as [group|e].
  - rewrite report_of_values. apply Forall_fmap, Forall_forall.
    intros error _. apply readonly_report_body.
  - destruct d; repeat constructor; apply readonly_throw.
Qed.

(** The promises of [invalidSchema]: one call of [report] per value that
    [map] visits, in the order of the visit. *)
Lemma invalidSchema_run (d : dialect) (fetchEnd : ConfigInvalidSchema) (h : heap) :
  invalidSchema_of d fetchEnd h
  = (h, Normal ((fun v => report_of d v.2 (resource fetchEnd))
                  <$> visited (grouped_of h (errors fetchEnd)))).
Proof.
  destruct d; cbv [invalidSchema_of Babel.invalidSchema TypeScript.invalidSchema];
    unfold bind; rewrite groupBy_grouped_of; reflexivity.
Qed.

Lemma readonly_promises (d : dialect) (resource : string)
    (values : list (string * collection)) :
  Forall (Forall readonly) ((fun v => report_of d v.2 resource) <$> values).
Proof. apply Forall_fmap, Forall_forall. intros v _. apply readonly_report. Qed.

Lemma invalidSchema_consistent (d : dialect) (fetchEnd : ConfigInvalidSchema)
    (h : heap) (schedule : list event) (w : world) :
  run schedule (await_all (invalidSchema_of d fetchEnd) h) = Some w ->
  consistent h ((fun v => report_of d v.2 (resource fetchEnd))
                  <$> visited (grouped_of h (errors fetchEnd))) w.
Proof.
  unfold await_all. rewrite invalidSchema_run.
  set (bodies := _ <$> visited _).
  assert (Forall (Forall readonly) bodies) as Hro by apply readonly_promises.
  apply run_consistent; [exact Hro |].
  now apply (spawn_all_consistent h [] bodies (start h) (start_consistent h)).
Qed.

(** The task of a group runs the body of [report] on the errors of the
    group. *)
Lemma promise_of_group (d : dialect) (h : heap) (errors : list ref) (resource : string)
    (i : nat) (path : string) (group : list ref) :
  visited (grouped_of h errors) !! i = Some (path, Values group) ->
  ((fun v => report_of d v.2 resource) <$> visited (grouped_of h errors)) !! i
  = Some (report_body_of d group resource <$> group).
Proof.
  intros Hi. rewrite list_lookup_fmap, Hi. cbn. f_equal. apply report_of_values.
Qed.

(** Without a dataPath [__proto__] the promises are those of the groups of
    the stable partition. *)
Lemma promises_plain (d : dialect) (h : heap) (errors : list ref) (resource : string) :
  Forall (fun r => dataPath (h r) <> "__proto__") errors ->
  (fun v => report_of d v.2 resource) <$> visited (grouped_of h errors)
  = (fun p => report_body_of d p.2 resource <$> p.2)
      <$> ownEntries (stable_partition h errors).
Proof.
  intros Hplain. rewrite visited_plain by exact Hplain.
  rewrite <- list_fmap_compose. apply list_fmap_ext.
  intros _ p _. cbn. apply report_of_values.
Qed.

Lemma sum_list_Permutation (l1 l2 : list nat) : l1 ≡ₚ l2 -> sum_list l1 = sum_list l2.
Proof.
  assert (forall a l', sum_list (a :: l') = a + sum_list l') as Hcons by reflexivity.
  induction 1 as [|x l l' _ IH|x y l|l l' l'' _ IH1 _ IH2];
    rewrite ?Hcons; try reflexivity; try lia; congruence.
Qed.

(** The calls of all the groups of a stable partition together are as many
    as the errors. *)
Lemma length_own_promises (d : dialect) (h : heap) (errors : list ref)
    (resource : string) :
  length (concat ((fun p => report_body_of d p.2 resource <$> p.2)
                    <$> ownEntries (stable_partition h errors)))
  = length errors.
Proof.
  rewrite length_concat_sum, <- list_fmap_compose.
  rewrite (list_fmap_ext _ (fun p : string * list ref => length p.2))
    by (intros _ p _; cbn; apply length_fmap).
  rewrite (sum_list_Permutation _ ((fun p : string * list ref => length p.2)
                                     <$> stable_partition h errors))
    by (apply fmap_Permutation, ownEntries_Permutation).
  rewrite <- (Permutation_length (concat_stable_partition h errors)).
  now rewrite length_concat_sum, <- list_fmap_compose.
Qed.

Lemma length_promises_plain (d : dialect) (h : heap) (errors : list ref)
    (resource : string) :
  Forall (fun r => dataPath (h r) <> "__proto__") errors ->
  length (concat ((fun v => report_of d v.2 resource) <$> visited (grouped_of h errors)))
  = length errors.
Proof.
  intros Hplain. rewrite promises_plain by exact Hplain. apply length_own_promises.
Qed.

(** In general the calls are at most as many as the errors. *)
Lemma length_promises (d : dialect) (h : heap) (errors : list ref) (resource : string) :
  length (concat ((fun v => report_of d v.2 resource) <$> visited (grouped_of h errors)))
  <= length errors.
Proof.
  pose proof (length_filter (fun r => dataPath (h r) <> "__proto__") errors) as Hord.
  assert (length (concat ((fun v => report_of d v.2 resource)
                            <$> ((fun p : string * list ref => (p.1, Values p.2))
                                   <$> ownEntries (own (grouped_of h errors)))))
          <= length errors) as Hown.
  { rewrite <- list_fmap_compose.
    rewrite (list_fmap_ext _ (fun p : string * list ref =>
                                report_body_of d p.2 resource <$> p.2))
      by (intros _ p _; cbn; apply report_of_values).
    cbn [grouped_of own]. now rewrite length_own_promises. }
  unfold visited. destruct (proto (grouped_of h errors)) as [e|] eqn:Hproto;
    [| exact Hown].
  destruct (isArrayLike (grouped_of h errors)); [| exact Hown].
  cbn [fmap list_fmap concat snd]. rewrite app_nil_r.
  destruct (lookup_own "0" (own (grouped_of h errors))) as [values|] eqn:Hzero.
  - rewrite report_of_values, length_fmap.
    apply lookup_own_elem in Hzero. cbn [grouped_of own] in Hzero.
    apply elem_of_stable_partition in Hzero as [_ ->].
    unfold errors_at. etrans; [apply length_filter | exact Hord].
  - cbn [grouped_of proto] in Hproto.
    destruct errors as [|r errors]; [discriminate |].
    destruct d; cbn; lia.
Qed.

(** Every error of an event without a dataPath [__proto__] sits in a group
    that [map] visits. *)
Lemma error_position (h : heap) (errors : list ref) (error : ref) :
  Forall (fun r => dataPath (h r) <> "__proto__") errors ->
  error ∈ errors ->
  exists i j group,
    visited (grouped_of h errors) !! i = Some (dataPath (h error), Values group)
    /\ group !! j = Some error.
Proof.
  intros Hplain Hin. rewrite visited_plain by exact Hplain.
  assert ((dataPath (h error), errors_at h (dataPath (h error)) errors)
          ∈ ownEntries (stable_partition h errors)) as Hentry.
  { apply elem_of_ownEntries. unfold stable_partition.
    apply (list_elem_of_fmap_2 (fun path => (path, errors_at h path errors))).
    apply elem_of_firstSeen.
    now apply (list_elem_of_fmap_2 (fun r => dataPath (h r))). }
  apply list_elem_of_lookup_1 in Hentry as [i Hi].
  assert (error ∈ errors_at h (dataPath (h error)) errors) as Hmember
    by (unfold errors_at; rewrite list_elem_of_filter; auto).
  apply list_elem_of_lookup_1 in Hmember as [j Hj].
  exists i, j, (errors_at h (dataPath (h error)) errors).
  split; [| exact Hj]. now rewrite list_lookup_fmap, Hi.
Qed.

(** C8, for an event none of whose dataPaths is [__proto__], as those of the
    validator: when the handling of the event is fulfilled, the sink has
    received as many diagnostics as the event has errors, each from the task
    of a group; every error is in a group; the task of each group has made,
    in the order of the errors of the group, the call of [report] for each of
    them; and every task has returned.  The handling is fulfilled on some
    schedule whenever the formatter chain throws on none of the errors. *)
Theorem handling_reports_every_error (d : dialect) (fetchEnd : ConfigInvalidSchema)
    (h : heap) (grouped : Grouped) :
  Forall (fun r => dataPath (h r) <> "__proto__") (errors fetchEnd) ->
  groupBy (errors fetchEnd) (get dataPath) h = (h, Normal grouped) ->
  (forall schedule w,
     run schedule (await_all (invalidSchema_of d fetchEnd) h) = Some w ->
     w_handler w = Fulfilled ->
     length (w_sink w) = length (errors fetchEnd)
     /\ (forall p, p ∈ w_sink w -> p.1 < length (visited grouped))
     /\ (forall error, error ∈ errors fetchEnd ->
           exists i j group,
             visited grouped !! i = Some (dataPath (h error), Values group)
             /\ group !! j = Some error)
     /\ (forall i path group,
           visited grouped !! i = Some (path, Values group) ->
           Forall2 (fun diagnostic error =>
                      outcome h (report_body_of d group (resource fetchEnd) error)
                      = Normal diagnostic
                      /\ d_resource diagnostic = resource fetchEnd
                      /\ d_location diagnostic = None)
                   (emitted i w) group)
     /\ length (w_tasks w) = length (visited grouped)
     /\ Forall (fun t => t = Returned) (w_tasks w))
  /\ (Forall (fun error => exists text, (prettyfy_of d error h).2 = Normal text)
             (errors fetchEnd) ->
      exists schedule w,
        run schedule (await_all (invalidSchema_of d fetchEnd) h) = Some w
        /\ w_handler w = Fulfilled).
Proof.
  intros Hplain. rewrite groupBy_grouped_of. intros [= <-]. split.
  - intros schedule w Hrun Hf.
    pose proof (invalidSchema_consistent d fetchEnd h schedule w Hrun) as Hw.
    destruct (fulfilled_world h _ w Hw Hf) as (Hret & Hlen & Hcalls & Htags & Hcount).
    rewrite length_fmap in Hlen, Htags.
    rewrite length_promises_plain in Hcount by exact Hplain.
    repeat split; try assumption.
    + intros error Hin. now apply error_position.
    + intros i path group Hi.
      specialize (Hcalls i _ (promise_of_group d h _ (resource fetchEnd) i path group Hi)).
      rewrite <- list_fmap_compose in Hcalls. apply fmap_eq_Forall2 in Hcalls.
      eapply Forall2_impl; [exact Hcalls |].
      intros diagnostic error Hcall. cbn in Hcall. split; [exact Hcall |].
      now apply (report_body_addressed d h group _ error).
  - intros Hgood. unfold await_all. rewrite invalidSchema_run.
    rewrite promises_plain by exact Hplain.
    apply (healthy_fulfils h _ _ (Nat.le_refl _)).
    apply spawn_all_healthy; [repeat split; constructor |].
    apply Forall_fmap, Forall_forall. intros [path group] Hin.
    apply elem_of_ownEntries, elem_of_stable_partition in Hin as [_ ->].
    apply Forall_fmap, Forall_forall. intros error Hin. cbn.
    split; [apply readonly_report_body |].
    apply report_body_normal; [| exact Hin].
    apply Forall_forall. intros r Hr. rewrite Forall_forall in Hgood. apply Hgood.
    unfold errors_at in Hr. now apply list_elem_of_filter in Hr as [_ ?].
Qed.

Lemma handling_reports_every_error_witness :
  (exists w,
     run [Ack 0; Ack 0; Ack 0; Settle]
         (await_all (invalidSchema_of typescript pattern_event) fixtures) = Some w
     /\ length (w_sink w) = 3
     /\ Forall (fun t => t = Returned) (w_tasks w))
  /\ (exists schedule w,
        run schedule (await_all (invalidSchema_of typescript pattern_event) fixtures)
        = Some w
        /\ w_handler w = Fulfilled).
Proof.
  destruct (handling_reports_every_error typescript pattern_event fixtures
              (grouped_of fixtures (errors pattern_event)))
    as [Hsafe Hlive].
  - repeat constructor; discriminate.
  - apply groupBy_grouped_of.
  - split.
    + eexists. split; [vm_compute; reflexivity |].
      destruct (Hsafe [Ack 0; Ack 0; Ack 0; Settle] _ eq_refl eq_refl)
        as (Hcount & _ & _ & _ & _ & Hret).
      split; [exact Hcount | exact Hret].
    + apply Hlive. repeat constructor; eexists; vm_compute; reflexivity.
Defined.

(** C1, as the code has it: the diagnostic reported for an 'anyOf' error is
    made of the formatter-chain outputs of the other errors of its own group,
    that is of the errors of the event that sit at the same dataPath, the
    'anyOf' error itself left out, in their order in the event, joined by
    " or ". *)
Theorem anyOf_combines_its_group (fetchEnd : ConfigInvalidSchema) (h : heap)
    (grouped : Grouped) (schedule : list event) (w : world)
    (i j : nat) (path : string) (group : list ref) (error : ref) :
  groupBy (errors fetchEnd) (get dataPath) h = (h, Normal grouped) ->
  run schedule (await_all (invalidSchema_of typescript fetchEnd) h) = Some w ->
  w_handler w = Fulfilled ->
  visited grouped !! i = Some (path, Values group) ->
  group !! j = Some error ->
  keyword (h error) = "anyOf" ->
  exists diagnostic results,
    emitted i w !! j = Some diagnostic
    /\ d_resource diagnostic = resource fetchEnd
    /\ d_location diagnostic = None
    /\ d_text diagnostic = join " or " results
    /\ Forall2 (fun text other => (prettyfy_of typescript other h).2 = Normal text)
               results
               (filter (fun other => other <> error
                                     /\ dataPath (h other) = dataPath (h error))
                       (errors fetchEnd)).
Proof.
  rewrite groupBy_grouped_of. intros [= <-] Hrun Hf Hi Hj Hkw.
  pose proof (invalidSchema_consistent typescript fetchEnd h schedule w Hrun) as Hw.
  destruct (fulfilled_world h _ w Hw Hf) as (_ & _ & Hcalls & _ & _).
  specialize (Hcalls i _ (promise_of_group typescript h _ (resource fetchEnd)
                            i path group Hi)).
  apply (f_equal (fun l => l !! j)) in Hcalls.
  rewrite !list_lookup_fmap, Hj in Hcalls.
  destruct (emitted i w !! j) as [diagnostic|]; [| discriminate].
  injection Hcalls as Hcall. symmetry in Hcall.
  assert (group = errors_at h path (errors fetchEnd)) as Hgroup.
  { apply (visited_group h (errors fetchEnd) path group).
    now apply list_elem_of_lookup_2 in Hi. }
  assert (dataPath (h error) = path) as Hpath.
  { apply list_elem_of_lookup_2 in Hj. rewrite Hgroup in Hj.
    unfold errors_at in Hj. now apply list_elem_of_filter in Hj as [? _]. }
  assert (without group error
          = filter (fun other => other <> error
                                 /\ dataPath (h other) = dataPath (h error))
                   (errors fetchEnd)) as Hothers.
  { unfold without. rewrite Hgroup, Hpath. unfold errors_at.
    apply list_filter_filter. }
  destruct (report_body_addressed typescript h group _ error diagnostic Hcall)
    as [Hres Hloc].
  revert Hcall. unfold outcome.
  cbv [report_body_of TypeScript.report_body bind get]. rewrite Hkw.
  change (String.eqb "anyOf" "anyOf") with true. cbv beta iota.
  destruct (mapM TypeScript.prettyfy (without group error) h) as [h' [results|e]] eqn:E;
    cbn; [| discriminate].
  intros [= <-]. exists (context_report (resource fetchEnd) None (join " or " results)),
                        results.
  repeat split. rewrite <- Hothers.
  apply (mapM_inv TypeScript.prettyfy _ h results (readonly_prettyfy typescript)).
  now rewrite E.
Qed.

(** The third report of the [invalidschemapattern] test. *)
Lemma anyOf_combines_its_group_witness :
  exists w diagnostic,
    run [Ack 0; Ack 0; Ack 0; Settle]
        (await_all (invalidSchema_of typescript pattern_event) fixtures) = Some w
    /\ emitted 0 w !! 2 = Some diagnostic
    /\ exists results,
         d_text diagnostic = join " or " results
         /\ Forall2 (fun text other =>
                       (prettyfy_of typescript other fixtures).2 = Normal text)
                    results [0; 1].
Proof.
  eexists.
  destruct (anyOf_combines_its_group pattern_event fixtures
              (grouped_of fixtures (errors pattern_event))
              [Ack 0; Ack 0; Ack 0; Settle] _ 0 2 ".compilerOptions.target" [0; 1; 2] 2
              (groupBy_grouped_of _ _) eq_refl eq_refl eq_refl eq_refl eq_refl)
    as (diagnostic & results & Hd & _ & _ & Htext & Hresults).
  exists diagnostic. split; [reflexivity |]. split; [exact Hd |].
  exists results. split; [exact Htext | exact Hresults].
Defined.

(** C1, as stated, fails: the 'anyOf' error of an event whose other error
    sits at another dataPath is reported with an empty text, not with the
    rendering of that other error. *)
Lemma anyOf_full_list_counterexample :
  exists w,
    run [Ack 0; Ack 1; Settle]
        (await_all (invalidSchema_of typescript lone_anyOf_event) fixtures) = Some w
    /\ w_handler w = Fulfilled
    /\ keyword (fixtures 5) = "anyOf"
    /\ d_text <$> emitted 1 w = [""]
    /\ (mapM TypeScript.prettyfy (without (errors lone_anyOf_event) 5) fixtures).2
       = Normal ["'compilerOptions.target' should be equal to one of the allowed values 'es3, es5, es6, es2015, es2016, es2017, esnext'. Value found 'invalid'"]
    /\ d_text <$> emitted 1 w
       <> [join " or " ["'compilerOptions.target' should be equal to one of the allowed values 'es3, es5, es6, es2015, es2016, es2017, esnext'. Value found 'invalid'"]].
Proof.
  eexists. split; [vm_compute; reflexivity |].
  split; [reflexivity |]. split; [reflexivity |]. split; [reflexivity |].
  split; [reflexivity |]. vm_compute. discriminate.
Qed.

(** C5: the handler of a bad-JSON event makes exactly one call to the sink,
    whatever happens next: for the resource of the event, without location,
    and with the parser's message as it is; and it returns once the sink has
    acknowledged the call. *)
Theorem invalid_json_reports_parser_message (d : dialect) (ev : ConfigInvalid) (h : heap) :
  let diagnostic :=
    {| d_resource := ci_resource ev; d_location := None;
       d_text := Error_message (ci_error ev) |} in
  (forall schedule w,
     run schedule (call_async (invalidJSONFile_of d ev) h) = Some w ->
     w_sink w = [(0, diagnostic)] /\ w_heap w = h)
  /\ (exists w,
        run [Ack 0] (call_async (invalidJSONFile_of d ev) h) = Some w
        /\ w_tasks w = [Returned] /\ w_sink w = [(0, diagnostic)]).
Proof.
  intros diagnostic. split.
  - assert (forall schedule w0 w,
              w_sink w0 = [(0, diagnostic)] -> w_heap w0 = h ->
              (w_tasks w0 = [Suspended []] \/ w_tasks w0 = [Returned]
               \/ w_tasks w0 = [Thrown]) ->
              run schedule w0 = Some w ->
              w_sink w = [(0, diagnostic)] /\ w_heap w = h) as Hinv.
    { induction schedule as [|e schedule IH]; intros w0 w Hsink Hheap Htasks Hrun.
      - injection Hrun as <-. now split.
      - cbn [run] in Hrun. destruct (step e w0) as [w1|] eqn:Hstep; [| discriminate].
        assert (w_sink w1 = w_sink w0 /\ w_heap w1 = w_heap w0
                /\ (w_tasks w1 = [Suspended []] \/ w_tasks w1 = [Returned]
                    \/ w_tasks w1 = [Thrown])) as (Hs & Hh & Ht1).
        { destruct e as [i|i|]; cbn [step] in Hstep.
          - destruct Htasks as [Ht|[Ht|Ht]]; rewrite Ht in Hstep;
              destruct i as [|i]; try discriminate.
            cbn in Hstep. injection Hstep as <-. cbn. rewrite Ht. cbn. auto.
          - destruct Htasks as [Ht|[Ht|Ht]]; rewrite Ht in Hstep;
              destruct i as [|i]; try discriminate.
            cbn in Hstep. injection Hstep as <-. cbn. rewrite Ht. cbn. auto.
          - destruct (w_handler w0); try discriminate.
            destruct (existsb is_thrown (w_tasks w0));
              [| destruct (forallb is_returned (w_tasks w0))];
              try discriminate; injection Hstep as <-; cbn; auto. }
        apply (IH w1 w); [congruence | congruence | exact Ht1 | exact Hrun]. }
    intros schedule w. apply Hinv; destruct d; cbn; auto.
  - destruct d; eexists; cbn; repeat split.
Qed.

Lemma invalid_json_reports_parser_message_witness :
  exists w,
    run [Ack 0; Settle] (call_async (invalidJSONFile_of typescript invalidjson_event)
                           fixtures) = Some w
    /\ w_sink w = [(0, {| d_resource := "tsconfig.json"; d_location := None;
                          d_text := "Unexpected token ' in JSON at position 148" |})].
Proof.
  eexists. split; [vm_compute; reflexivity |].
  exact (proj1 (proj1 (invalid_json_reports_parser_message typescript invalidjson_event
                         fixtures) [Ack 0; Settle] _ eq_refl)).
Defined.

(** * Further properties *)

(** ** The tables of generators *)

(** A generator answers [null] to every error that has not its keyword. *)
Lemma generator_skips (d : dialect) (i : nat) (g : ref -> M (option string))
    (k : string) (error : ref) (h : heap) :
  generators_of d !! i = Some g -> declared_keywords d !! i = Some k ->
  keyword (h error) <> k -> g error h = (h, Normal None).
Proof.
  intros Hg Hk Hne. apply String.eqb_neq in Hne.
  destruct d; destruct i as [|[|[|i]]]; try discriminate;
    injection Hg as <-; injection Hk as <-;
    cbv [Babel.generateAdditionalPropertiesError Babel.generateEnumError
         Babel.generateTypeError TypeScript.generateAdditionalPropertiesError
         TypeScript.generateEnumError TypeScript.generatePatternError
         Babel.errorKeywords.additionalProperties Babel.errorKeywords.enum
         Babel.errorKeywords.type bind get] in *;
    now rewrite Hne.
Qed.

Lemma declared_keywords_NoDup (d : dialect) : NoDup (declared_keywords d).
Proof.
  destruct d; cbv [declared_keywords Babel.errorKeywords.additionalProperties
                   Babel.errorKeywords.enum Babel.errorKeywords.type];
    repeat (apply NoDup_cons; split;
            [rewrite ?elem_of_cons, elem_of_nil; intuition discriminate |]);
    apply NoDup_nil_2.
Qed.

Lemma generators_keywords_length (d : dialect) :
  length (generators_of d) = length (declared_keywords d).
Proof. now destruct d. Qed.

(** X1: at most one generator of a table fires on an error.  A generator
    answers [null], without throwing, to every error whose keyword is not
    its own, the keywords of a table are pairwise distinct, and so when one
    generator does not answer [null] all the others do. *)
Theorem generators_are_exclusive (d : dialect) (i j : nat)
    (g g' : ref -> M (option string)) (error : ref) (h : heap) :
  generators_of d !! i = Some g ->
  generators_of d !! j = Some g' ->
  i <> j ->
  (g error h).2 <> Normal None ->
  declared_keywords d !! i = Some (keyword (h error))
  /\ g' error h = (h, Normal None).
Proof.
  intros Hg Hg' Hij Hfires.
  assert (is_Some (declared_keywords d !! i)) as [k Hk].
  { apply lookup_lt_is_Some. rewrite <- generators_keywords_length.
    apply lookup_lt_is_Some. eauto. }
  assert (is_Some (declared_keywords d !! j)) as [k' Hk'].
  { apply lookup_lt_is_Some. rewrite <- generators_keywords_length.
    apply lookup_lt_is_Some. eauto. }
  assert (keyword (h error) = k) as Hkw.
  { destruct (decide (keyword (h error) = k)) as [|Hne]; [assumption |].
    rewrite (generator_skips d i g k error h Hg Hk Hne) in Hfires.
    now destruct Hfires. }
  split; [now rewrite Hkw |].
  apply (generator_skips d j g' k' error h Hg' Hk'). rewrite Hkw. intros <-.
  apply Hij. exact (NoDup_lookup _ _ _ _ (declared_keywords_NoDup d) Hk Hk').
Qed.

Lemma generators_are_exclusive_witness :
  declared_keywords typescript !! 1 = Some (keyword (fixtures 0))
  /\ TypeScript.generatePatternError 0 fixtures = (fixtures, Normal None).
Proof.
  apply (generators_are_exclusive typescript 1 2 TypeScript.generateEnumError
           TypeScript.generatePatternError 0 fixtures eq_refl eq_refl).
  - discriminate.
  - vm_compute. discriminate.
Defined.

(** X2: the rendering of a generator is never the empty string, so the test
    [if (newErrorMessage)] of the chain never drops one: when a generator of
    the table renders an error, the chain returns that rendering. *)
Theorem firing_generator_decides (d : dialect) (g : ref -> M (option string))
    (error : ref) (h : heap) (rendered : string) :
  g ∈ generators_of d ->
  (g error h).2 = Normal (Some rendered) ->
  rendered <> "" /\ prettyfy_of d error h = (h, Normal rendered).
Proof.
  intros Hg Hfires.
  apply list_elem_of_lookup_1 in Hg as [i Hg].
  assert (is_Some (declared_keywords d !! i)) as [k Hk].
  { apply lookup_lt_is_Some. rewrite <- generators_keywords_length.
    apply lookup_lt_is_Some. eauto. }
  assert (keyword (h error) = k) as Hkw.
  { destruct (decide (keyword (h error) = k)) as [|Hne]; [assumption |].
    rewrite (generator_skips d i g k error h Hg Hk Hne) in Hfires. discriminate. }
  assert (forall s, "'" +:+ s <> "") as Hquoted by (intros s; discriminate).
  destruct d; destruct i as [|[|[|i]]]; try discriminate;
    injection Hg as <-; injection Hk as <-;
    cbv [Babel.errorKeywords.additionalProperties Babel.errorKeywords.enum
         Babel.errorKeywords.type] in Hkw.
  - rewrite (prettyfy_additionalProperties babel error h Hkw).
    revert Hfires.
    cbv [Babel.generateAdditionalPropertiesError
         Babel.errorKeywords.additionalProperties bind get].
    rewrite Hkw. cbn. intros [= <-]. split; [apply Hquoted | reflexivity].
  - destruct (params (h error)) as [a|allowedValues|] eqn:Hp.
    2:{ destruct (forallb joinable allowedValues) eqn:Hallowed,
                 (converts (data (h error))) eqn:Hconv.
        1:{ rewrite (prettyfy_enum babel error h allowedValues Hkw Hp Hallowed Hconv).
            revert Hfires.
            cbv [Babel.generateEnumError Babel.errorKeywords.enum bind get allowedValues_join toString].
            repeat first [rewrite Hkw | rewrite Hp | rewrite Hallowed | rewrite Hconv
                         | progress cbn].
            intros [= <-]. split; [apply Hquoted | reflexivity]. }
        all: revert Hfires;
          cbv [Babel.generateEnumError Babel.errorKeywords.enum bind get allowedValues_join toString];
          repeat first [rewrite Hkw | rewrite Hp | rewrite Hallowed | rewrite Hconv
                       | progress cbn];
          discriminate. }
    all: revert Hfires; cbv [Babel.generateEnumError Babel.errorKeywords.enum bind get];
      repeat first [rewrite Hkw | rewrite Hp | progress cbn]; discriminate.
  - rewrite (prettyfy_type error h Hkw).
    revert Hfires. cbv [Babel.generateTypeError Babel.errorKeywords.type bind get].
    rewrite Hkw. cbn. intros [= <-]. split; [apply Hquoted | reflexivity].
  - rewrite (prettyfy_additionalProperties typescript error h Hkw).
    revert Hfires. cbv [TypeScript.generateAdditionalPropertiesError bind get].
    rewrite Hkw. cbn. intros [= <-]. split; [apply Hquoted | reflexivity].
  - destruct (params (h error)) as [a|allowedValues|] eqn:Hp.
    2:{ destruct (forallb joinable allowedValues) eqn:Hallowed,
                 (converts (data (h error))) eqn:Hconv.
        1:{ rewrite (prettyfy_enum typescript error h allowedValues Hkw Hp Hallowed Hconv).
            revert Hfires.
            cbv [TypeScript.generateEnumError bind get allowedValues_join toString].
            repeat first [rewrite Hkw | rewrite Hp | rewrite Hallowed | rewrite Hconv
                         | progress cbn].
            intros [= <-]. split; [apply Hquoted | reflexivity]. }
        all: revert Hfires;
          cbv [TypeScript.generateEnumError bind get allowedValues_join toString];
          repeat first [rewrite Hkw | rewrite Hp | rewrite Hallowed | rewrite Hconv
                       | progress cbn];
          discriminate. }
    all: revert Hfires; cbv [TypeScript.generateEnumError bind get];
      repeat first [rewrite Hkw | rewrite Hp | progress cbn]; discriminate.
  - destruct (converts (data (h error))) eqn:Hconv.
    + rewrite (prettyfy_pattern error h Hkw Hconv).
      revert Hfires. cbv [TypeScript.generatePatternError bind get toString].
      repeat first [rewrite Hkw | rewrite Hconv | progress cbn].
      intros [= <-]. split; [apply Hquoted | reflexivity].
    + revert Hfires. cbv [TypeScript.generatePatternError bind get toString].
      repeat first [rewrite Hkw | rewrite Hconv | progress cbn]. discriminate.
Qed.

Lemma firing_generator_decides_witness :
  "'moduleId' should be string." <> ""
  /\ prettyfy_of babel 4 fixtures = (fixtures, Normal "'moduleId' should be string.").
Proof.
  apply (firing_generator_decides babel Babel.generateTypeError 4 fixtures).
  - cbv [generators_of Babel.errorGenerators].
    apply list_elem_of_further, list_elem_of_further, list_elem_of_here.
  - reflexivity.
Defined.

(** ** What a fulfilled handling has reported *)

(** In a fulfilled world the call for the [j]-th error of the [i]-th group
    has been made and has returned. *)
Lemma fulfilled_call (d : dialect) (fetchEnd : ConfigInvalidSchema) (h : heap)
    (schedule : list event) (w : world) (i j : nat) (path : string)
    (group : list ref) (error : ref) :
  run schedule (await_all (invalidSchema_of d fetchEnd) h) = Some w ->
  w_handler w = Fulfilled ->
  visited (grouped_of h (errors fetchEnd)) !! i = Some (path, Values group) ->
  group !! j = Some error ->
  exists diagnostic,
    emitted i w !! j = Some diagnostic
    /\ outcome h (report_body_of d group (resource fetchEnd) error) = Normal diagnostic.
Proof.
  intros Hrun Hf Hi Hj.
  pose proof (invalidSchema_consistent d fetchEnd h schedule w Hrun) as Hw.
  destruct (fulfilled_world h _ w Hw Hf) as (_ & _ & Hcalls & _ & _).
  specialize (Hcalls i _ (promise_of_group d h _ (resource fetchEnd) i path group Hi)).
  apply (f_equal (fun l => l !! j)) in Hcalls.
  rewrite !list_lookup_fmap, Hj in Hcalls.
  destruct (emitted i w !! j) as [diagnostic|]; [| discriminate].
  injection Hcalls as Hcall. now exists diagnostic.
Qed.

(** The call of [report] for an error that is not an 'anyOf', and every call
    of the babel rule, formats the error itself. *)
Lemma report_body_direct (d : dialect) (h : heap) (group : list ref)
    (resource : string) (error : ref) :
  d = babel \/ keyword (h error) <> "anyOf" ->
  outcome h (report_body_of d group resource error)
  = match (prettyfy_of d error h).2 with
    | Normal message => Normal (context_report resource None message)
    | Throw e => Throw e
    end.
Proof.
  intros Hdirect. unfold outcome.
  destruct d; cbv [report_body_of Babel.report_body TypeScript.report_body bind get
                   prettyfy_of].
  - now destruct (Babel.prettyfy error h) as [h' [message|e]].
  - destruct Hdirect as [|Hkw]; [discriminate |].
    apply String.eqb_neq in Hkw. rewrite Hkw.
    now destruct (TypeScript.prettyfy error h) as [h' [message|e]].
Qed.

(** X3: an enum error that comes without its [allowedValues] makes the
    formatter chain throw a TypeError, and the handling of an event that
    holds such an error, and no error at the dataPath [__proto__], is never
    fulfilled, on any schedule. *)
Theorem malformed_enum_is_never_fulfilled (d : dialect) (fetchEnd : ConfigInvalidSchema)
    (h : heap) (error : ref) :
  Forall (fun r => dataPath (h r) <> "__proto__") (errors fetchEnd) ->
  error ∈ errors fetchEnd ->
  keyword (h error) = "enum" ->
  (forall allowedValues, params (h error) <> EnumParams allowedValues) ->
  (prettyfy_of d error h).2 = Throw TypeError
  /\ forall schedule w,
       run schedule (await_all (invalidSchema_of d fetchEnd) h) = Some w ->
       w_handler w <> Fulfilled.
Proof.
  intros Hplain Hin Hkw Hp.
  pose proof (prettyfy_enum_throws d error h Hkw Hp) as Hthrows.
  split; [now rewrite Hthrows |].
  intros schedule w Hrun Hf.
  destruct (error_position h (errors fetchEnd) error Hplain Hin)
    as (i & j & group & Hi & Hj).
  destruct (fulfilled_call d fetchEnd h schedule w i j _ group error Hrun Hf Hi Hj)
    as (diagnostic & _ & Hcall).
  rewrite report_body_direct, Hthrows in Hcall; [discriminate |].
  right. rewrite Hkw. discriminate.
Qed.

Lemma malformed_enum_is_never_fulfilled_witness :
  (prettyfy_of typescript 1 malformed_enum).2 = Throw TypeError
  /\ exists w,
       run [Ack 0; Settle] (await_all (invalidSchema_of typescript malformed_event)
                              malformed_enum) = Some w
       /\ w_handler w = Rejected.
Proof.
  destruct (malformed_enum_is_never_fulfilled typescript malformed_event
              malformed_enum 1) as [Hthrows Hnever].
  - repeat constructor; discriminate.
  - apply list_elem_of_further, list_elem_of_here.
  - reflexivity.
  - intros allowedValues. discriminate.
  - split; [exact Hthrows |]. eexists. split; [vm_compute; reflexivity |].
    pose proof (Hnever [Ack 0; Settle] _ eq_refl) as Hnot.
    reflexivity.
Defined.

(** X4: the babel rule reports every error, an 'anyOf' included, and the
    typescript rule every error that is not an 'anyOf', with the text the
    formatter chain gives for that very error; so a babel 'anyOf' error is
    reported with its own message. *)
Theorem error_is_reported_with_its_own_rendering (d : dialect)
    (fetchEnd : ConfigInvalidSchema) (h : heap) (grouped : Grouped)
    (schedule : list event) (w : world) (i j : nat) (path : string)
    (group : list ref) (error : ref) :
  groupBy (errors fetchEnd) (get dataPath) h = (h, Normal grouped) ->
  run schedule (await_all (invalidSchema_of d fetchEnd) h) = Some w ->
  w_handler w = Fulfilled ->
  visited grouped !! i = Some (path, Values group) ->
  group !! j = Some error ->
  d = babel \/ keyword (h error) <> "anyOf" ->
  exists diagnostic,
    emitted i w !! j = Some diagnostic
    /\ (prettyfy_of d error h).2 = Normal (d_text diagnostic)
    /\ (d = babel -> keyword (h error) = "anyOf" ->
        d_text diagnostic = message (h error)).
Proof.
  rewrite groupBy_grouped_of. intros [= <-] Hrun Hf Hi Hj Hdirect.
  destruct (fulfilled_call d fetchEnd h schedule w i j path group error Hrun Hf Hi Hj)
    as (diagnostic & Hd & Hcall).
  rewrite report_body_direct in Hcall by exact Hdirect.
  destruct (prettyfy_of d error h).2 as [text|e] eqn:Htext; [| discriminate].
  injection Hcall as <-. exists (context_report (resource fetchEnd) None text).
  split; [exact Hd |]. split; [reflexivity |].
  intros -> Hkw. cbn [context_report d_text].
  assert (prettyfy_of babel error h = (h, Normal (message (h error)))) as Hfallback.
  { clear Htext. run_formatters. reflexivity. }
  rewrite Hfallback in Htext. now injection Htext as <-.
Qed.

Lemma error_is_reported_with_its_own_rendering_witness :
  exists w diagnostic,
    run [Ack 0; Ack 0; Ack 0; Settle]
        (await_all (invalidSchema_of babel pattern_event) fixtures) = Some w
    /\ emitted 0 w !! 2 = Some diagnostic
    /\ d_text diagnostic = "should match some schema in anyOf".
Proof.
  eexists.
  destruct (error_is_reported_with_its_own_rendering babel pattern_event fixtures
              (grouped_of fixtures (errors pattern_event))
              [Ack 0; Ack 0; Ack 0; Settle] _ 0 2 ".compilerOptions.target" [0; 1; 2] 2
              (groupBy_grouped_of _ _) eq_refl eq_refl eq_refl eq_refl
              (or_introl eq_refl))
    as (diagnostic & Hd & _ & Hown).
  exists diagnostic. split; [reflexivity |]. split; [exact Hd |].
  exact (Hown eq_refl eq_refl).
Defined.

(** X5: an 'anyOf' error that is the only error at its dataPath is reported
    by the typescript rule with an empty text. *)
Theorem lone_anyOf_is_reported_empty (fetchEnd : ConfigInvalidSchema) (h : heap)
    (grouped : Grouped) (schedule : list event) (w : world)
    (i j : nat) (path : string) (group : list ref) (error : ref) :
  groupBy (errors fetchEnd) (get dataPath) h = (h, Normal grouped) ->
  run schedule (await_all (invalidSchema_of typescript fetchEnd) h) = Some w ->
  w_handler w = Fulfilled ->
  visited grouped !! i = Some (path, Values group) ->
  group !! j = Some error ->
  keyword (h error) = "anyOf" ->
  (forall other, other ∈ errors fetchEnd ->
                 dataPath (h other) = dataPath (h error) -> other = error) ->
  emitted i w !! j
  = Some {| d_resource := resource fetchEnd; d_location := None; d_text := "" |}.
Proof.
  rewrite groupBy_grouped_of. intros [= <-] Hrun Hf Hi Hj Hkw Halone.
  destruct (fulfilled_call typescript fetchEnd h schedule w i j _ group error
              Hrun Hf Hi Hj) as (diagnostic & Hd & Hcall).
  rewrite Hd. f_equal.
  assert (group = errors_at h path (errors fetchEnd)) as Hgroup.
  { apply (visited_group h (errors fetchEnd) path group).
    now apply list_elem_of_lookup_2 in Hi. }
  assert (dataPath (h error) = path) as Hpath.
  { apply list_elem_of_lookup_2 in Hj. rewrite Hgroup in Hj.
    unfold errors_at in Hj. now apply list_elem_of_filter in Hj as [? _]. }
  assert (without group error = []) as Hnone.
  { unfold without. rewrite Hgroup, <- Hpath. unfold errors_at.
    rewrite list_filter_filter. clear -Halone. revert Halone.
    induction (errors fetchEnd) as [|other l IH]; intros Halone; [reflexivity |].
    rewrite filter_cons, decide_False.
    - apply IH. intros o Ho. apply Halone. now right.
    - intros [Hne Hsame]. apply Hne, Halone; [left | exact Hsame]. }
  revert Hcall. unfold outcome.
  cbv [report_body_of TypeScript.report_body bind get]. rewrite Hkw, Hnone.
  change (String.eqb "anyOf" "anyOf") with true. cbn. now intros [= <-].
Qed.

Lemma lone_anyOf_is_reported_empty_witness :
  exists w,
    run [Ack 0; Ack 1; Settle]
        (await_all (invalidSchema_of typescript lone_anyOf_event) fixtures) = Some w
    /\ emitted 1 w !! 0
       = Some {| d_resource := "tsconfig.json"; d_location := None; d_text := "" |}.
Proof.
  eexists. split; [vm_compute; reflexivity |].
  apply (lone_anyOf_is_reported_empty lone_anyOf_event fixtures
           (grouped_of fixtures (errors lone_anyOf_event))
           [Ack 0; Ack 1; Settle] _ 1 0 ".compilerOptions.lib" [5] 5
           (groupBy_grouped_of _ _) eq_refl eq_refl eq_refl eq_refl eq_refl).
  intros other. cbn [errors lone_anyOf_event].
  rewrite !elem_of_cons, elem_of_nil. intros [->|[->|[]]]; [discriminate | reflexivity].
Defined.

(** ** Rejections *)

Lemma resume_tasks (i : nat) (rest : async) (w : world) :
  w_tasks (resume i rest w).1 = w_tasks w /\ w_handler (resume i rest w).1 = w_handler w.
Proof.
  destruct rest as [|call rest']; [now cbn |].
  cbn [resume]. now destruct (call (w_heap w)) as [h' [d|e]].
Qed.

(** A task that has thrown stays so. *)
Lemma thrown_stays (ev : event) (w w' : world) (i : nat) :
  step ev w = Some w' -> w_tasks w !! i = Some Thrown -> w_tasks w' !! i = Some Thrown.
Proof.
  intros Hstep Hi. destruct ev as [k|k|]; cbn [step] in Hstep.
  - destruct (w_tasks w !! k) as [[rest| |]|] eqn:Hk; try discriminate.
    destruct (resume_tasks k rest w) as [Ht _].
    destruct (resume k rest w) as [w1 t1]. cbn [fst] in Ht.
    injection Hstep as <-. cbn [set_task w_tasks]. rewrite Ht.
    rewrite list_lookup_insert_ne; [exact Hi |]. intros ->. congruence.
  - destruct (w_tasks w !! k) as [[rest| |]|] eqn:Hk; try discriminate.
    injection Hstep as <-. cbn [set_task w_tasks].
    rewrite list_lookup_insert_ne; [exact Hi |]. intros ->. congruence.
  - destruct (w_handler w); try discriminate.
    destruct (existsb is_thrown (w_tasks w));
      [| destruct (forallb is_returned (w_tasks w))];
      try discriminate; now injection Hstep as <-.
Qed.

Lemma nack_throws (schedule : list event) (w w' : world) (i : nat) :
  run schedule w = Some w' ->
  Nack i ∈ schedule \/ w_tasks w !! i = Some Thrown ->
  w_tasks w' !! i = Some Thrown.
Proof.
  revert w. induction schedule as [|ev schedule IH]; intros w Hrun Hcase.
  - injection Hrun as <-. destruct Hcase as [Hin|Hi]; [inversion Hin | exact Hi].
  - cbn [run] in Hrun. destruct (step ev w) as [w1|] eqn:Hstep; [| discriminate].
    apply (IH w1 Hrun). destruct Hcase as [Hin|Hi].
    + apply elem_of_cons in Hin as [<-|Hin]; [| now left]. right.
      cbn [step] in Hstep.
      destruct (w_tasks w !! i) as [[rest| |]|] eqn:Hi; try discriminate.
      injection Hstep as <-. cbn [set_task w_tasks].
      apply list_lookup_insert_eq, lookup_lt_is_Some. eauto.
    + right. now apply (thrown_stays ev w w1).
Qed.

(** X6: once the sink has rejected a call, the handling of the event is
    never fulfilled, whatever the schedule does before or after. *)
Theorem rejected_call_is_never_fulfilled (d : dialect) (fetchEnd : ConfigInvalidSchema)
    (h : heap) (schedule : list event) (w : world) (i : nat) :
  run schedule (await_all (invalidSchema_of d fetchEnd) h) = Some w ->
  Nack i ∈ schedule ->
  w_tasks w !! i = Some Thrown /\ w_handler w <> Fulfilled.
Proof.
  intros Hrun Hnack.
  pose proof (nack_throws schedule _ w i Hrun (or_introl Hnack)) as Hthrown.
  split; [exact Hthrown |]. intros Hf.
  destruct (invalidSchema_consistent d fetchEnd h schedule w Hrun)
    as (_ & _ & _ & _ & Hdone).
  specialize (Hdone Hf). rewrite Forall_lookup in Hdone.
  now specialize (Hdone i _ Hthrown).
Qed.

Lemma rejected_call_is_never_fulfilled_witness :
  exists w,
    run [Ack 0; Nack 0; Settle]
        (await_all (invalidSchema_of typescript pattern_event) fixtures) = Some w
    /\ w_tasks w !! 0 = Some Thrown
    /\ w_handler w = Rejected.
Proof.
  eexists. split; [vm_compute; reflexivity |].
  split; [| reflexivity].
  apply (rejected_call_is_never_fulfilled typescript pattern_event fixtures
           [Ack 0; Nack 0; Settle] _ 0 eq_refl).
  apply list_elem_of_further, list_elem_of_here.
Defined.

(** ** What holds at every moment of a run *)

Lemma spawn_in_order (h : heap) (bodies : list async) (body : async) (w : world) :
  consistent h bodies w -> in_order h bodies w -> Forall readonly body ->
  in_order h (bodies ++ [body]) (spawn w body).
Proof.
  intros (Hh & Hlen & _ & Htags & _) Hord Hro.
  destruct (spawn_spec w body) as (_ & Hsink & _ & _).
  assert (emitted (length (w_tasks w)) w = []) as Hnone
    by (apply (emitted_fresh _ _ (length bodies)); [exact Htags | lia]).
  destruct (resume_ok h body [] body (length (w_tasks w)) w Hh Hro eq_refl)
    as (Hok & Hothers & _); [now rewrite Hnone |].
  destruct (resume_spec h (length (w_tasks w)) body w Hh Hro) as (_ & _ & _ & Hcase).
  intros j body' Hb. rewrite (emitted_same j _ _ Hsink).
  apply lookup_snoc_Some in Hb as [[Hj Hb]|[-> <-]].
  - rewrite Hothers by lia. now apply Hord.
  - rewrite <- Hlen.
    destruct (resume (length (w_tasks w)) body w) as [w1 t1]. cbn [fst snd] in *.
    destruct body as [|call rest'].
    + destruct Hcase as [Hs _]. rewrite (emitted_same _ _ _ Hs), Hnone.
      now exists [], [].
    + destruct (outcome h call) as [diagnostic|e].
      * destruct Hcase as [_ ->]. destruct Hok as (done & Hsplit & Hmade).
        now exists done, rest'.
      * destruct Hcase as [Hs _]. rewrite (emitted_same _ _ _ Hs), Hnone.
        now exists [], (call :: rest').
Qed.

Lemma spawn_all_in_order (h : heap) (bodies more : list async) (w : world) :
  consistent h bodies w -> w_handler w = Pending -> in_order h bodies w ->
  Forall (Forall readonly) more ->
  in_order h (bodies ++ more) (foldl spawn w more).
Proof.
  intros Hw Hp Hord Hro. revert bodies w Hw Hp Hord.
  induction Hro as [|body more Hbody _ IH]; intros bodies w Hw Hp Hord.
  - now rewrite app_nil_r.
  - destruct (spawn_consistent h bodies body w Hw Hp Hbody) as [Hw' Hp'].
    pose proof (spawn_in_order h bodies body w Hw Hord Hbody) as Hord'.
    cbn [foldl]. specialize (IH (bodies ++ [body]) (spawn w body) Hw' Hp' Hord').
    now rewrite <- app_assoc in IH.
Qed.

Lemma step_in_order (h : heap) (bodies : list async) (ev : event) (w w' : world) :
  Forall (Forall readonly) bodies ->
  consistent h bodies w -> in_order h bodies w -> step ev w = Some w' ->
  in_order h bodies w'.
Proof.
  intros Hro (Hh & Hlen & Htasks & _ & _) Hord Hstep.
  destruct ev as [k|k|]; cbn [step] in Hstep.
  - destruct (w_tasks w !! k) as [[rest| |]|] eqn:Hk; try discriminate.
    assert (is_Some (bodies !! k)) as [body Hbody].
    { apply lookup_lt_is_Some. rewrite <- Hlen. apply lookup_lt_is_Some. eauto. }
    destruct (Htasks k body _ Hbody Hk) as (done & Hsplit & Hmade).
    assert (Forall readonly rest) as Hrest.
    { rewrite Forall_lookup in Hro. specialize (Hro k body Hbody).
      rewrite Hsplit in Hro. now apply Forall_app in Hro as [_ ?]. }
    destruct (resume_spec h k rest w Hh Hrest) as (_ & _ & _ & Hcase).
    destruct (resume_ok h body done rest k w Hh Hrest Hsplit Hmade)
      as (Hok & Hothers & _).
    destruct (resume k rest w) as [w1 t1]. cbn [fst snd] in *.
    injection Hstep as <-. intros j body' Hb. rewrite set_task_emitted.
    destruct (decide (j = k)) as [->|Hne]; [| rewrite Hothers by exact Hne; now apply Hord].
    rewrite Hbody in Hb. injection Hb as <-.
    destruct rest as [|call rest'].
    + destruct Hcase as [Hs _]. rewrite (emitted_same _ _ _ Hs). now exists done, [].
    + destruct (outcome h call) as [diagnostic|e].
      * destruct Hcase as [_ ->]. destruct Hok as (done' & Hsplit' & Hmade').
        now exists done', rest'.
      * destruct Hcase as [Hs _]. rewrite (emitted_same _ _ _ Hs).
        now exists done, (call :: rest').
  - destruct (w_tasks w !! k) as [[rest| |]|] eqn:Hk; try discriminate.
    injection Hstep as <-. intros j body' Hb. rewrite set_task_emitted. now apply Hord.
  - destruct (w_handler w); try discriminate.
    destruct (existsb is_thrown (w_tasks w));
      [| destruct (forallb is_returned (w_tasks w))];
      try discriminate; now injection Hstep as <-.
Qed.

Lemma run_in_order (h : heap) (bodies : list async) (schedule : list event)
    (w w' : world) :
  Forall (Forall readonly) bodies ->
  consistent h bodies w -> in_order h bodies w -> run schedule w = Some w' ->
  in_order h bodies w'.
Proof.
  intros Hro. revert w. induction schedule as [|ev schedule IH]; intros w Hw Hord Hrun.
  - now injection Hrun as <-.
  - cbn [run] in Hrun. destruct (step ev w) as [w1|] eqn:Hstep; [| discriminate].
    apply (IH w1); [| | exact Hrun].
    + now apply (step_consistent h bodies ev w).
    + now apply (step_in_order h bodies ev w).
Qed.

(** X7: at every moment of the handling of a bad-schema event, on every
    schedule and also when the handling ends rejected, the error objects are
    untouched, and what the sink has received from the task of a group are
    the diagnostics of a first part of the group, in the order of the group,
    each for the resource of the event and without location. *)
Theorem reports_are_in_order_at_every_moment (d : dialect)
    (fetchEnd : ConfigInvalidSchema) (h : heap) (grouped : Grouped)
    (schedule : list event) (w : world) :
  groupBy (errors fetchEnd) (get dataPath) h = (h, Normal grouped) ->
  run schedule (await_all (invalidSchema_of d fetchEnd) h) = Some w ->
  w_heap w = h
  /\ (forall p, p ∈ w_sink w -> p.1 < length (visited grouped))
  /\ (forall i path group,
        visited grouped !! i = Some (path, Values group) ->
        exists reported pending,
          group = reported ++ pending
          /\ Forall2 (fun diagnostic error =>
                       outcome h (report_body_of d group (resource fetchEnd) error)
                       = Normal diagnostic
                       /\ d_resource diagnostic = resource fetchEnd
                       /\ d_location diagnostic = None)
                    (emitted i w) reported).
Proof.
  rewrite groupBy_grouped_of. intros [= <-] Hrun.
  pose proof (invalidSchema_consistent d fetchEnd h schedule w Hrun)
    as (Hh & _ & _ & Htags & _).
  rewrite length_fmap in Htags. split; [exact Hh |]. split; [exact Htags |].
  intros i path group Hi.
  pose proof (promise_of_group d h _ (resource fetchEnd) i path group Hi) as Hbody.
  revert Hrun Hbody. unfold await_all. rewrite invalidSchema_run.
  set (bodies := _ <$> visited _). intros Hrun Hbody.
  assert (Forall (Forall readonly) bodies) as Hro by apply readonly_promises.
  destruct (spawn_all_consistent h [] bodies (start h) (start_consistent h)
              eq_refl Hro) as [Hw0 Hp0].
  assert (in_order h bodies (foldl spawn (start h) bodies)) as Hord0.
  { apply (spawn_all_in_order h [] bodies (start h) (start_consistent h) eq_refl);
      [| exact Hro].
    intros j body Hb. inversion Hb. }
  pose proof (run_in_order h bodies schedule _ w Hro Hw0 Hord0 Hrun) as Hord.
  destruct (Hord i (report_body_of d group (resource fetchEnd) <$> group) Hbody)
    as (done & rest & Hsplit & Hmade).
  apply fmap_app_inv in Hsplit as (reported & pending & -> & -> & ->).
  exists reported, pending. split; [reflexivity |].
  rewrite <- list_fmap_compose in Hmade. apply fmap_eq_Forall2 in Hmade.
  eapply Forall2_impl; [exact Hmade |].
  intros diagnostic error Hcall. cbn in Hcall. split; [exact Hcall |].
  now apply (report_body_addressed d h (reported ++ pending) _ error).
Qed.

Lemma reports_are_in_order_at_every_moment_witness :
  exists w reported pending,
    run [Ack 0; Nack 0; Settle]
        (await_all (invalidSchema_of typescript pattern_event) fixtures) = Some w
    /\ w_handler w = Rejected
    /\ [0; 1; 2] = reported ++ pending
    /\ length (emitted 0 w) = length reported.
Proof.
  eexists.
  destruct (reports_are_in_order_at_every_moment typescript pattern_event fixtures
              (grouped_of fixtures (errors pattern_event))
              [Ack 0; Nack 0; Settle] _ (groupBy_grouped_of _ _) eq_refl)
    as (_ & _ & Hgroups).
  destruct (Hgroups 0 ".compilerOptions.target" [0; 1; 2] eq_refl)
    as (reported & pending & Hsplit & Hmade).
  exists reported, pending. split; [reflexivity |]. split; [reflexivity |].
  split; [exact Hsplit |]. exact (Forall2_length _ _ _ Hmade).
Defined.

(** ** Every run comes to rest *)

Lemma waiting_resume (i : nat) (rest : async) (w : world) :
  waiting (resume i rest w).2 <= length rest.
Proof.
  destruct rest as [|call rest']; [now cbn |].
  cbn [resume]. destruct (call (w_heap w)) as [h' [d|e]]; cbn; lia.
Qed.

Lemma sum_list_snoc (l : list nat) (x : nat) : sum_list (l ++ [x]) = sum_list l + x.
Proof.
  assert (forall a l', sum_list (a :: l') = a + sum_list l') as Hcons by reflexivity.
  induction l as [|a l IH]; [cbn; lia |].
  cbn [app]. rewrite !Hcons, IH. lia.
Qed.

(** Every step uses up fuel. *)
Lemma step_fuel (ev : event) (w w' : world) : step ev w = Some w' -> fuel w' < fuel w.
Proof.
  unfold fuel. intros Hstep. destruct ev as [k|k|]; cbn [step] in Hstep.
  - destruct (w_tasks w !! k) as [[rest| |]|] eqn:Hk; try discriminate.
    destruct (resume_tasks k rest w) as [Ht Hp].
    pose proof (waiting_resume k rest w) as Hless.
    destruct (resume k rest w) as [w1 t1]. cbn [fst snd] in *.
    injection Hstep as <-. cbn [set_task w_tasks w_handler].
    rewrite Ht, Hp, list_fmap_insert.
    pose proof (sum_list_insert (waiting <$> w_tasks w) k
                  (waiting (Suspended rest)) (waiting t1)) as Hsum.
    rewrite list_lookup_fmap, Hk in Hsum. specialize (Hsum eq_refl).
    cbn [waiting] in Hsum. lia.
  - destruct (w_tasks w !! k) as [[rest| |]|] eqn:Hk; try discriminate.
    injection Hstep as <-. cbn [set_task w_tasks w_handler].
    rewrite list_fmap_insert.
    pose proof (sum_list_insert (waiting <$> w_tasks w) k
                  (waiting (Suspended rest)) (waiting Thrown)) as Hsum.
    rewrite list_lookup_fmap, Hk in Hsum. specialize (Hsum eq_refl).
    cbn [waiting] in *. lia.
  - destruct (w_handler w); try discriminate.
    destruct (existsb is_thrown (w_tasks w));
      [| destruct (forallb is_returned (w_tasks w))];
      try discriminate; injection Hstep as <-; cbn [w_tasks w_handler]; lia.
Qed.

Lemma run_fuel (schedule : list event) (w w' : world) :
  run schedule w = Some w' -> length schedule + fuel w' <= fuel w.
Proof.
  revert w. induction schedule as [|ev schedule IH]; intros w Hrun.
  - injection Hrun as <-. cbn. lia.
  - cbn [run] in Hrun. destruct (step ev w) as [w1|] eqn:Hstep; [| discriminate].
    specialize (IH w1 Hrun). apply step_fuel in Hstep. cbn [length]. lia.
Qed.

Lemma spawn_all_fuel (bodies : list async) (w : world) :
  w_handler w = Pending ->
  w_handler (foldl spawn w bodies) = Pending
  /\ sum_list (waiting <$> w_tasks (foldl spawn w bodies))
     <= sum_list (waiting <$> w_tasks w) + length (concat bodies).
Proof.
  revert w. induction bodies as [|body bodies IH]; intros w Hp.
  - cbn. split; [exact Hp | lia].
  - cbn [foldl concat]. rewrite length_app.
    destruct (spawn_spec w body) as (_ & _ & Hnew & Hhandler).
    destruct (resume_tasks (length (w_tasks w)) body w) as [Ht Hp'].
    pose proof (waiting_resume (length (w_tasks w)) body w) as Hless.
    destruct (IH (spawn w body)) as [Hpending Hsum]; [congruence |].
    split; [exact Hpending |].
    rewrite Hnew, Ht, fmap_app in Hsum.
    change (waiting <$> [?t]) with [waiting t] in Hsum.
    rewrite sum_list_snoc in Hsum. lia.
Qed.

(** X8: the handling of a bad-schema event comes to rest: no schedule, of
    acknowledgements, rejections and settling in any order, runs for more
    steps than the event has errors, plus one. *)
Theorem handling_comes_to_rest (d : dialect) (fetchEnd : ConfigInvalidSchema)
    (h : heap) (schedule : list event) (w : world) :
  run schedule (await_all (invalidSchema_of d fetchEnd) h) = Some w ->
  length schedule <= length (errors fetchEnd) + 1.
Proof.
  intros Hrun. apply run_fuel in Hrun. revert Hrun.
  unfold await_all. rewrite invalidSchema_run.
  destruct (spawn_all_fuel ((fun v => report_of d v.2 (resource fetchEnd))
                              <$> visited (grouped_of h (errors fetchEnd)))
              (start h) eq_refl) as [Hp Hsum].
  pose proof (length_promises d h (errors fetchEnd) (resource fetchEnd)) as Hle.
  unfold fuel. rewrite Hp. cbn in Hsum. lia.
Qed.

Lemma handling_comes_to_rest_witness :
  length [Ack 0; Ack 0; Ack 0; Settle] <= length (errors pattern_event) + 1.
Proof.
  eapply (handling_comes_to_rest typescript pattern_event fixtures). 
  vm_compute. reflexivity.
Defined.

(** X9: an event without errors starts no call of [report] and reports
    nothing; the only step of its handling is the settling, which fulfils
    it. *)
Theorem empty_event_reports_nothing (d : dialect) (fetchEnd : ConfigInvalidSchema)
    (h : heap) :
  errors fetchEnd = [] ->
  (forall schedule w,
     run schedule (await_all (invalidSchema_of d fetchEnd) h) = Some w ->
     w_sink w = [] /\ w_tasks w = [] /\ (schedule = [] \/ schedule = [Settle]))
  /\ exists w,
       run [Settle] (await_all (invalidSchema_of d fetchEnd) h) = Some w
       /\ w_handler w = Fulfilled.
Proof.
  intros Hempty.
  assert (await_all (invalidSchema_of d fetchEnd) h = start h) as ->.
  { unfold await_all. rewrite invalidSchema_run, Hempty. reflexivity. }
  split; [| now eexists].
  intros [|ev schedule] w Hrun.
  - injection Hrun as <-. auto.
  - destruct ev as [k|k|]; try discriminate.
    cbn in Hrun. destruct schedule as [|ev schedule].
    + injection Hrun as <-. auto.
    + destruct ev as [k|k|]; discriminate.
Qed.

Lemma empty_event_reports_nothing_witness :
  exists w,
    run [Settle] (await_all (invalidSchema_of babel empty_event) fixtures) = Some w
    /\ w_sink w = [] /\ w_handler w = Fulfilled.
Proof.
  destruct (empty_event_reports_nothing babel empty_event fixtures eq_refl)
    as [Hall _].
  eexists. split; [reflexivity |].
  split; [| reflexivity].
  exact (proj1 (Hall [Settle] _ eq_refl)).
Defined.

(** ** The calls made before any acknowledgement *)

Lemma spawn_all_sink (h : heap) (bodies : list async) (w : world) :
  Forall (Forall readonly) bodies -> w_heap w = h ->
  w_sink (foldl spawn w bodies)
  = w_sink w ++ first_calls h (length (w_tasks w)) bodies.
Proof.
  intros Hro. revert w. induction Hro as [|body bodies Hbody _ IH]; intros w Hh.
  - cbn. now rewrite app_nil_r.
  - cbn [foldl first_calls].
    destruct (spawn_spec w body) as (Hheap & Hsink & Hnew & _).
    destruct (resume_spec h (length (w_tasks w)) body w Hh Hbody)
      as (Hh' & Ht' & _ & Hcase).
    rewrite IH by congruence.
    rewrite Hnew, Ht', length_app, Nat.add_1_r, Hsink.
    destruct body as [|call rest'].
    + destruct Hcase as [-> _]. reflexivity.
    + destruct (outcome h call) as [diagnostic|e]; destruct Hcase as [-> _];
        [now rewrite <- app_assoc | reflexivity].
Qed.

Lemma first_calls_all (h : heap) (m : nat) (bodies : list async) :
  Forall (fun body => exists call rest diagnostic,
                        body = call :: rest /\ outcome h call = Normal diagnostic)
         bodies ->
  (first_calls h m bodies).*1 = seq m (length bodies)
  /\ Forall2 (fun entry body => exists call rest,
                body = call :: rest /\ outcome h call = Normal entry.2)
             (first_calls h m bodies) bodies.
Proof.
  intros Hall. revert m.
  induction Hall as [|body bodies (call & rest & diagnostic & -> & Hcall) _ IH];
    intros m; [now split; constructor |].
  cbn [first_calls]. rewrite Hcall. destruct (IH (S m)) as [Htags Hcalls].
  split.
  - cbn. now rewrite Htags.
  - constructor; [now exists call, rest | exact Hcalls].
Qed.

(** X10: as soon as [invalidSchema] has been called on an event none of
    whose dataPaths is [__proto__], before the sink has acknowledged anything,
    the sink has received one diagnostic from each group, that of the first
    error of the group, in the order in which the groups are enumerated (the
    formatter chain throwing on no error). *)
Theorem first_calls_are_one_per_group (d : dialect) (fetchEnd : ConfigInvalidSchema)
    (h : heap) (grouped : Grouped) :
  Forall (fun r => dataPath (h r) <> "__proto__") (errors fetchEnd) ->
  groupBy (errors fetchEnd) (get dataPath) h = (h, Normal grouped) ->
  Forall (fun error => exists text, (prettyfy_of d error h).2 = Normal text)
         (errors fetchEnd) ->
  let w0 := await_all (invalidSchema_of d fetchEnd) h in
  (w_sink w0).*1 = seq 0 (length (visited grouped))
  /\ Forall2 (fun entry v =>
               exists group error rest,
                 v.2 = Values group
                 /\ group = error :: rest
                 /\ outcome h (report_body_of d group (resource fetchEnd) error)
                    = Normal entry.2)
            (w_sink w0) (visited grouped).
Proof.
  intros Hplain. rewrite groupBy_grouped_of. intros [= <-] Hgood. cbv zeta.
  unfold await_all. rewrite invalidSchema_run, promises_plain by exact Hplain.
  rewrite visited_plain by exact Hplain.
  set (entries := ownEntries (stable_partition h (errors fetchEnd))).
  set (bodies := _ <$> entries).
  assert (Forall (Forall readonly) bodies) as Hro.
  { apply Forall_fmap, Forall_forall. intros [path' group'] _.
    apply Forall_fmap, Forall_forall. intros error _. apply readonly_report_body. }
  rewrite (spawn_all_sink h bodies (start h) Hro eq_refl). cbn [start w_sink w_tasks app length].
  destruct (first_calls_all h 0 bodies) as [Htags Hcalls].
  { apply Forall_fmap, Forall_forall. intros [path group] Hin.
    apply elem_of_ownEntries, elem_of_stable_partition in Hin as [Hpath ->].
    pose proof (errors_at_nonempty h (errors fetchEnd) path Hpath) as Hne.
    destruct (errors_at h path (errors fetchEnd)) as [|error rest] eqn:Hgroup;
      [contradiction |].
    destruct (report_body_normal d h (error :: rest) (resource fetchEnd) error)
      as [diagnostic Hd].
    - apply Forall_forall. intros r Hr. rewrite Forall_forall in Hgood. apply Hgood.
      rewrite <- Hgroup in Hr. unfold errors_at in Hr.
      now apply list_elem_of_filter in Hr as [_ ?].
    - left.
    - cbn. eauto. }
  split; [rewrite Htags; unfold bodies; now rewrite !length_fmap |].
  unfold bodies in Hcalls. apply Forall2_fmap_r in Hcalls. apply Forall2_fmap_r.
  eapply Forall2_impl; [exact Hcalls |].
  intros entry [path group] (call & rest & Hbody & Hcall). cbn in *.
  destruct group as [|error group']; [discriminate |].
  injection Hbody as <- _. now exists (error :: group'), error, group'.
Qed.

Lemma first_calls_are_one_per_group_witness :
  (w_sink (await_all (invalidSchema_of typescript mixed_event) fixtures)).*1 = [0; 1]
  /\ (d_text <$> (w_sink (await_all (invalidSchema_of typescript mixed_event)
                            fixtures)).*2)
     = ["'compilerOptions' should NOT have additional properties. Additional property found 'invalidProperty'.";
        "'compilerOptions.target' should be equal to one of the allowed values 'es3, es5, es6, es2015, es2016, es2017, esnext'. Value found 'invalid'"].
Proof.
  destruct (first_calls_are_one_per_group typescript mixed_event fixtures
              (grouped_of fixtures (errors mixed_event))) as [Htags _].
  - repeat constructor; discriminate.
  - apply groupBy_grouped_of.
  - repeat constructor; eexists; vm_compute; reflexivity.
  - split; [exact Htags | reflexivity].
Defined.

(** ** The order of the groups *)

(** X11: when no dataPath is an array index or [__proto__], as is the case
    of the paths of the validator, the promises that [invalidSchema] hands
    to [Promise.all] are the calls of [report] on the groups in the order in
    which their dataPaths are first seen, each group holding the errors of
    its dataPath in the order of the event. *)
Theorem validator_paths_are_grouped_in_first_seen_order (d : dialect)
    (fetchEnd : ConfigInvalidSchema) (h : heap) :
  Forall (fun r => array_index (dataPath (h r)) = None
                   /\ dataPath (h r) <> "__proto__") (errors fetchEnd) ->
  invalidSchema_of d fetchEnd h
  = (h, Normal ((fun path =>
                   let group := filter (fun r => dataPath (h r) = path) (errors fetchEnd) in
                   report_body_of d group (resource fetchEnd) <$> group)
                  <$> firstSeen ((fun r => dataPath (h r)) <$> errors fetchEnd)))
  /\ forall path, validator_path path -> array_index path = None /\ path <> "__proto__".
Proof.
  intros Hpaths. split; [| apply validator_path_ordinary].
  rewrite invalidSchema_run, visited_first_seen by exact Hpaths.
  unfold stable_partition. rewrite <- !list_fmap_compose. do 2 f_equal.
  apply list_fmap_ext. intros _ path _. cbn. apply report_of_values.
Qed.

Lemma validator_paths_are_grouped_in_first_seen_order_witness :
  exists promises,
    (invalidSchema_of typescript mixed_event fixtures).2 = Normal promises
    /\ length <$> promises = [1; 3].
Proof.
  destruct (validator_paths_are_grouped_in_first_seen_order typescript mixed_event
              fixtures) as [Hrun _].
  - repeat constructor; discriminate.
  - eexists. split; [rewrite Hrun; reflexivity | reflexivity].
Defined.

Lemma filter_fst {V} (P : string -> Prop) `{!forall k, Decision (P k)}
    (l : Dictionary V) :
  (filter (fun p => P p.1) l).*1 = filter P l.*1.
Proof.
  induction l as [|p l IH]; [reflexivity |].
  cbn [fmap list_fmap]. rewrite !filter_cons. cbn [fst].
  destruct (decide (P p.1)); cbn [fmap list_fmap]; now rewrite IH.
Qed.

(** X12: whenever no dataPath is [__proto__], the groups are enumerated with
    the dataPaths that are array indices first, by ascending index, followed
    by the other dataPaths in the order in which they are first seen. *)
Theorem groups_are_enumerated_indices_first (h : heap) (errors : list ref) :
  Forall (fun r => dataPath (h r) <> "__proto__") errors ->
  exists (grouped : Grouped) (indexed named : list string),
    groupBy errors (get dataPath) h = (h, Normal grouped)
    /\ (visited grouped).*1 = indexed ++ named
    /\ indexed ≡ₚ filter (fun k => is_Some (array_index k))
                         (firstSeen ((fun r => dataPath (h r)) <$> errors))
    /\ StronglySorted key_le indexed
    /\ named = filter (fun k => array_index k = None)
                      (firstSeen ((fun r => dataPath (h r)) <$> errors)).
Proof.
  intros Hplain. set (sp := stable_partition h errors).
  exists (grouped_of h errors),
    (merge_sort index_le (filter (fun p => is_Some (array_index p.1)) sp)).*1,
    (filter (fun p => array_index p.1 = None) sp).*1.
  split; [apply groupBy_grouped_of |].
  split.
  { rewrite visited_plain by exact Hplain. rewrite <- list_fmap_compose.
    unfold ownEntries. fold sp. now rewrite <- fmap_app. }
  split; [| split].
  - rewrite (merge_sort_Permutation index_le).
    pose proof (filter_fst (fun k => is_Some (array_index k)) sp) as Hfst.
    cbv beta in Hfst. rewrite Hfst.
    unfold sp. now rewrite stable_partition_keys.
  - apply (StronglySorted_fmap fst index_le key_le); [now intros p q |].
    apply StronglySorted_merge_sort.
    + intros p q r. unfold index_le. lia.
    + intros p q. unfold index_le. lia.
  - pose proof (filter_fst (fun k => array_index k = None) sp) as Hfst.
    cbv beta in Hfst. rewrite Hfst.
    unfold sp. now rewrite stable_partition_keys.
Qed.

(** For the dataPaths "1" then "0" the groups are enumerated "0" then "1". *)
Lemma groups_are_enumerated_indices_first_witness :
  exists grouped : Grouped,
    groupBy [0; 1] (get dataPath) index_paths = (index_paths, Normal grouped)
    /\ firstSeen ((fun r => dataPath (index_paths r)) <$> [0; 1]) = ["1"; "0"]
    /\ (visited grouped).*1 = ["0"; "1"].
Proof.
  destruct (groups_are_enumerated_indices_first index_paths [0; 1])
    as (grouped & indexed & named & Hrun & _).
  - repeat constructor; discriminate.
  - exists grouped. split; [exact Hrun |]. split; [reflexivity |].
    injection Hrun as <-. vm_compute. reflexivity.
Defined.

Lemma length_firstSeen (l : list string) : length (firstSeen l) <= length l.
Proof.
  induction l as [|k l IH]; [reflexivity |].
  cbn [firstSeen length].
  pose proof (length_filter (fun k' => k' <> k) (firstSeen l)). lia.
Qed.

(** X13: at every moment of the handling there is one task per value that
    [map] has visited, and no group is empty; when no dataPath is
    [__proto__], that is one call of [report] per distinct dataPath of the
    event, never more calls than the event has errors. *)
Theorem one_task_per_dataPath (d : dialect) (fetchEnd : ConfigInvalidSchema)
    (h : heap) (grouped : Grouped) (schedule : list event) (w : world) :
  groupBy (errors fetchEnd) (get dataPath) h = (h, Normal grouped) ->
  run schedule (await_all (invalidSchema_of d fetchEnd) h) = Some w ->
  length (w_tasks w) = length (visited grouped)
  /\ (forall path group, (path, Values group) ∈ visited grouped -> group <> [])
  /\ (Forall (fun r => dataPath (h r) <> "__proto__") (errors fetchEnd) ->
      length (w_tasks w)
      = length (firstSeen ((fun r => dataPath (h r)) <$> errors fetchEnd))
      /\ length (w_tasks w) <= length (errors fetchEnd)).
Proof.
  rewrite groupBy_grouped_of. intros [= <-] Hrun.
  destruct (invalidSchema_consistent d fetchEnd h schedule w Hrun)
    as (_ & Hlen & _ & _ & _).
  rewrite length_fmap in Hlen.
  split; [exact Hlen |]. split.
  - intros path group Hin.
    apply visited_group in Hin as (Hpath & _ & ->).
    now apply errors_at_nonempty.
  - intros Hplain. rewrite visited_plain, length_fmap in Hlen by exact Hplain.
    rewrite (Permutation_length (ownEntries_Permutation _)) in Hlen.
    unfold stable_partition in Hlen. rewrite length_fmap in Hlen.
    split; [exact Hlen |].
    rewrite Hlen. etrans; [apply length_firstSeen |]. now rewrite length_fmap.
Qed.

Lemma one_task_per_dataPath_witness :
  exists w,
    run [Ack 1; Nack 0]
        (await_all (invalidSchema_of typescript mixed_event) fixtures) = Some w
    /\ length (w_tasks w) = 2.
Proof.
  eexists. split; [vm_compute; reflexivity |].
  exact (proj1 (one_task_per_dataPath typescript mixed_event fixtures
                  (grouped_of fixtures (errors mixed_event))
                  [Ack 1; Nack 0] _ (groupBy_grouped_of _ _) eq_refl)).
Defined.

(** ** An error at the dataPath [__proto__] *)

Lemma lookup_own_None {V} (key : string) (object : Dictionary V) :
  key ∉ object.*1 -> lookup_own key object = None.
Proof.
  induction object as [|[k v] object IH]; [reflexivity |].
  cbn [fmap list_fmap fst lookup_own]. rewrite not_elem_of_cons. intros [Hne Hnin].
  apply not_eq_sym, String.eqb_neq in Hne. rewrite Hne. now apply IH.
Qed.

Lemma lookup_own_is_Some {V} (key : string) (object : Dictionary V) :
  key ∈ object.*1 -> is_Some (lookup_own key object).
Proof.
  induction object as [|[k v] object IH]; [intros Hin; inversion Hin |].
  cbn [fmap list_fmap fst lookup_own]. rewrite elem_of_cons.
  destruct (String.eqb_spec k key) as [->|Hne]; [now eexists |].
  intros [Heq|Hin]; [now symmetry in Heq | now apply IH].
Qed.

(** The own keys of the object built by [groupBy]. *)
Lemma own_keys (h : heap) (errors : list ref) (key : string) :
  key ∈ (own (grouped_of h errors)).*1
  <-> key <> "__proto__" /\ key ∈ (fun r => dataPath (h r)) <$> errors.
Proof.
  cbn [grouped_of own]. rewrite stable_partition_keys, elem_of_firstSeen.
  rewrite !list_elem_of_fmap. split.
  - intros (r & -> & Hr). apply list_elem_of_filter in Hr as [Hne Hr]. eauto.
  - intros (Hne & r & -> & Hr). exists r. split; [reflexivity |].
    apply list_elem_of_filter. auto.
Qed.

Lemma proto_is_Some (h : heap) (errors : list ref) (error : ref) :
  error ∈ errors -> dataPath (h error) = "__proto__" ->
  is_Some (proto (grouped_of h errors)).
Proof.
  intros Hin Hpath. cbn [grouped_of proto].
  assert (error ∈ errors_at h "__proto__" errors) as Hmember
    by (unfold errors_at; rewrite list_elem_of_filter; auto).
  destruct (errors_at h "__proto__" errors) as [|r l] using rev_ind;
    [inversion Hmember |].
  rewrite last_snoc. now eexists.
Qed.

(** X14: when an error of the event sits at the dataPath [__proto__], and
    none at "0" or "length", [groupBy] returns an object whose prototype is
    an array, [map] takes it for an array and calls [report] once, on the
    error object held by the prototype; that call throws before anything is
    reported.  Nothing reaches the sink, and the handling ends rejected. *)
Theorem prototype_key_rejects_unreported (d : dialect) (fetchEnd : ConfigInvalidSchema)
    (h : heap) (error : ref) :
  error ∈ errors fetchEnd ->
  dataPath (h error) = "__proto__" ->
  Forall (fun r => dataPath (h r) <> "0" /\ dataPath (h r) <> "length")
         (errors fetchEnd) ->
  (exists value, (invalidSchema_of d fetchEnd h).2
                 = Normal [report_of d (NotIterable value) (resource fetchEnd)])
  /\ (forall schedule w,
        run schedule (await_all (invalidSchema_of d fetchEnd) h) = Some w ->
        w_sink w = [] /\ w_tasks w = [Thrown] /\ w_handler w <> Fulfilled
        /\ (schedule = [] \/ schedule = [Settle]))
  /\ exists w,
       run [Settle] (await_all (invalidSchema_of d fetchEnd) h) = Some w
       /\ w_handler w = Rejected.
Proof.
  intros Hin Hpath Hkeys.
  destruct (proto_is_Some h (errors fetchEnd) error Hin Hpath) as [value Hproto].
  assert (forall key, key = "0" \/ key = "length" ->
            lookup_own key (own (grouped_of h (errors fetchEnd))) = None) as Hnone.
  { intros key Hkey. apply lookup_own_None. rewrite own_keys.
    intros [_ Hmember]. apply list_elem_of_fmap in Hmember as (r & -> & Hr).
    rewrite Forall_forall in Hkeys. specialize (Hkeys r Hr). tauto. }
  assert (visited (grouped_of h (errors fetchEnd)) = [("0", NotIterable value)])
    as Hvisited.
  { unfold visited, isArrayLike. rewrite Hproto.
    rewrite (Hnone "length") by auto. now rewrite (Hnone "0") by auto. }
  assert (await_all (invalidSchema_of d fetchEnd) h
          = {| w_heap := h; w_sink := []; w_tasks := [Thrown]; w_handler := Pending |})
    as Hstart.
  { unfold await_all. rewrite invalidSchema_run, Hvisited. now destruct d. }
  split; [| split].
  - exists value. now rewrite invalidSchema_run, Hvisited.
  - rewrite Hstart. intros [|ev schedule] w Hrun.
    + injection Hrun as <-. cbn. repeat split; auto.
    + destruct ev as [[|k]|[|k]|]; try discriminate.
      cbn in Hrun. destruct schedule as [|ev schedule].
      * injection Hrun as <-. cbn. repeat split; auto.
      * destruct ev as [[|k]|[|k]|]; discriminate.
  - rewrite Hstart. now eexists.
Qed.

(** The errors at ".a", "__proto__", ".a": one call of [report], which
    throws; no diagnostic; the handling is rejected. *)
Lemma prototype_key_rejects_unreported_witness :
  exists w,
    run [Settle] (await_all (invalidSchema_of typescript prototype_event)
                    prototype_paths) = Some w
    /\ w_sink w = [] /\ w_tasks w = [Thrown] /\ w_handler w = Rejected.
Proof.
  destruct (prototype_key_rejects_unreported typescript prototype_event
              prototype_paths 1) as (_ & Hall & _).
  - apply list_elem_of_further, list_elem_of_here.
  - reflexivity.
  - repeat constructor; discriminate.
  - eexists. split; [reflexivity |].
    destruct (Hall [Settle] _ eq_refl) as (Hsink & Htasks & _).
    split; [exact Hsink |]. split; [exact Htasks | reflexivity].
Defined.

(** X15: when an error of the event sits at the dataPath "length", the
    object that [groupBy] returns is never taken for an array, and the
    errors at the dataPath [__proto__] are in no group: a fulfilled handling
    has reported the other errors, and only them. *)
Theorem prototype_key_errors_are_dropped (d : dialect) (fetchEnd : ConfigInvalidSchema)
    (h : heap) (grouped : Grouped) (error : ref) :
  error ∈ errors fetchEnd ->
  dataPath (h error) = "length" ->
  groupBy (errors fetchEnd) (get dataPath) h = (h, Normal grouped) ->
  (forall path group, (path, Values group) ∈ visited grouped -> path <> "__proto__")
  /\ (visited grouped).*1
     ≡ₚ firstSeen ((fun r => dataPath (h r))
                     <$> filter (fun r => dataPath (h r) <> "__proto__") (errors fetchEnd))
  /\ forall schedule w,
       run schedule (await_all (invalidSchema_of d fetchEnd) h) = Some w ->
       w_handler w = Fulfilled ->
       length (w_sink w)
       = length (filter (fun r => dataPath (h r) <> "__proto__") (errors fetchEnd)).
Proof.
  intros Hin Hpath. rewrite groupBy_grouped_of. intros [= <-].
  assert (visited (grouped_of h (errors fetchEnd))
          = (fun p => (p.1, Values p.2))
              <$> ownEntries (own (grouped_of h (errors fetchEnd)))) as Hvisited.
  { destruct (lookup_own_is_Some "length" (own (grouped_of h (errors fetchEnd))))
      as [values Hlength].
    - apply own_keys. split; [discriminate |]. rewrite <- Hpath.
      now apply (list_elem_of_fmap_2 (fun r => dataPath (h r))).
    - unfold visited, isArrayLike. rewrite Hlength.
      now destruct (proto (grouped_of h (errors fetchEnd))). }
  split; [| split].
  - intros path group Hmember. now apply visited_group in Hmember as (_ & Hne & _).
  - rewrite Hvisited, <- list_fmap_compose.
    change (list_fmap _ _ (_ ∘ _)) with (@fmap list _ _ _ (@fst string (list ref))).
    rewrite (ownEntries_Permutation (own (grouped_of h (errors fetchEnd)))).
    cbn [grouped_of own]. now rewrite stable_partition_keys.
  - intros schedule w Hrun Hf.
    pose proof (invalidSchema_consistent d fetchEnd h schedule w Hrun) as Hw.
    destruct (fulfilled_world h _ w Hw Hf) as (_ & _ & _ & _ & ->).
    rewrite Hvisited, <- list_fmap_compose.
    rewrite (list_fmap_ext _ (fun p : string * list ref =>
                                report_body_of d p.2 (resource fetchEnd) <$> p.2))
      by (intros _ p _; cbn; apply report_of_values).
    cbn [grouped_of own]. apply length_own_promises.
Qed.

(** The errors at ".a", "__proto__", ".a", "length": three diagnostics. *)
Lemma prototype_key_errors_are_dropped_witness :
  exists w,
    run [Ack 0; Ack 0; Ack 1; Settle]
        (await_all (invalidSchema_of typescript prototype_length_event)
           prototype_paths) = Some w
    /\ w_handler w = Fulfilled
    /\ length (w_sink w) = 3.
Proof.
  destruct (prototype_key_errors_are_dropped typescript prototype_length_event
              prototype_paths (grouped_of prototype_paths [0; 1; 2; 3]) 3)
    as (_ & _ & Hcount).
  - do 3 apply list_elem_of_further. apply list_elem_of_here.
  - reflexivity.
  - apply groupBy_grouped_of.
  - eexists. split; [vm_compute; reflexivity |]. split; [reflexivity |].
    exact (Hcount [Ack 0; Ack 0; Ack 1; Settle] _ eq_refl eq_refl).
Defined.
